(** * Log-likelihood-ratio heatmaps of ESM-2 mutation scoring

    A shallow embedding of the notebook
    [notebooks/examples/Log-Likelihood-Ratios.ipynb]: the functions
    [generate_heatmap] and [update_heatmap], the Python, NumPy and PyTorch
    operations they use, and the properties of the LLR table they build.

    Python integers are [Z]; Python floats are IEEE binary64 numbers
    ([PrimFloat.float]); a tensor of token ids of shape [1, n] is the
    [list Z] of its only row, kept in a store of tensor objects so that
    [clone] and in-place assignment are what they are in PyTorch; the
    NumPy array [heatmap] is a list of rows.  Exceptions are an error
    result; calls that leave the function (loading from the hub, the
    forward pass, the plot) are recorded in a trace of events.  What the
    notebook imports from [transformers] and [torch] is the class
    [Imports]: the scorer and its properties hold for every instance.

    The job script [bash_scripts/esm_example.sh] and the exports of the
    script that sets the session up are embedded too, in the modules
    [JobScript] and [EnvScript]. *)

From stdpp Require Import base gmap list strings.
From Stdlib Require Import ZArith Floats.

Open Scope Z_scope.

(** ** Exceptions and the result of a fallible operation *)

Inductive PyError :=
  | IndexError      (* index out of range for a tensor or array dimension *)
  | ValueError      (* negative dimensions are not allowed *)
  | RuntimeError.   (* a tensor handle that names no tensor *)

Inductive Result (A : Type) :=
  | Ok (a : A)
  | Raise (e : PyError).
Arguments Ok {A} a.
Arguments Raise {A} e.

#[global] Instance Result_ret : MRet Result := λ A a, Ok a.
#[global] Instance Result_bind : MBind Result := λ A B f r,
  match r with
  | Ok a => f a
  | Raise e => Raise e
  end.

(** ** Indexing with a Python integer

    An index [i] into a dimension of size [n] is valid when
    [-n <= i < n]; a negative index counts from the end. *)

Definition py_index (n : nat) (i : Z) : option nat :=
  if decide (0 ≤ i < Z.of_nat n) then Some (Z.to_nat i)
  else if decide (- Z.of_nat n ≤ i < 0) then Some (Z.to_nat (Z.of_nat n + i))
  else None.

Definition getitem {A} (l : list A) (i : Z) : Result A :=
  match py_index (length l) i with
  | Some k => match l !! k with
              | Some x => Ok x
              | None => Raise IndexError
              end
  | None => Raise IndexError
  end.

Definition setitem {A} (l : list A) (i : Z) (x : A) : Result (list A) :=
  match py_index (length l) i with
  | Some k => Ok (<[k := x]> l)
  | None => Raise IndexError
  end.

(** [range(a, b)] *)
Definition py_range (a b : Z) : list Z := seqZ a (b - a).

(** [enumerate(l)] *)
Definition enumerate {A} (l : list A) : list (Z * A) :=
  imap (λ i x, (Z.of_nat i, x)) l.

(** [s[a:b]] on a sequence of length [n]: both bounds are clipped. *)
Definition py_slice_bound (n : nat) (i : Z) : Z :=
  if decide (i < 0) then Z.max 0 (Z.of_nat n + i) else Z.min i (Z.of_nat n).

Definition py_slice {A} (l : list A) (a b : Z) : list A :=
  let lo := py_slice_bound (length l) a in
  let hi := py_slice_bound (length l) b in
  take (Z.to_nat (hi - lo)) (drop (Z.to_nat lo) l).

(** [list(s)] for a string [s]: its characters as strings of length one. *)
Fixpoint list_str (s : string) : list string :=
  match s with
  | EmptyString => []
  | String c s' => String c EmptyString :: list_str s'
  end.

(** ** NumPy arrays of shape [rows, cols] *)

Abbreviation ndarray := (list (list float)).

(** [np.zeros((rows, cols))]: a negative dimension is a [ValueError].  An
    array that NumPy cannot allocate is outside the embedding: every table
    is taken to fit in memory. *)
Definition np_zeros (rows cols : Z) : Result ndarray :=
  if decide (rows < 0 ∨ cols < 0) then Raise ValueError
  else Ok (replicate (Z.to_nat rows) (replicate (Z.to_nat cols) 0%float)).

(** [a[i, j] = v] *)
Definition ndarray_setitem (a : ndarray) (i j : Z) (v : float) : Result ndarray :=
  row ← getitem a i;
  row' ← setitem row j v;
  setitem a i row'.

(** ** The tokenizer and the model

    Both come from the [transformers] library.  The scorer uses three
    members of the tokenizer, and of the model the logits of the only
    sequence of the batch: one row of scores per token of the input. *)

Record Tokenizer := {
  encode : string → list Z;
  mask_token_id : Z;
  convert_tokens_to_ids : string → Z
}.

Definition Model := list Z → list (list float).

(** ** Events, the store of tensors and the monad of the notebook *)

Inductive Event :=
  | AutoTokenizer_loaded (name : string)
  | EsmForMaskedLM_loaded (name : string)
  | forward_pass (ids : list Z)
  | plt_show (heatmap : ndarray) (xticks : list Z) (xlabels : list string).

Record State := {
  tensors : gmap nat (list Z);
  trace : list Event
}.

Definition M (A : Type) : Type := State → Result A * State.

#[global] Instance M_ret : MRet M := λ A a s, (Ok a, s).
#[global] Instance M_bind : MBind M := λ A B f m s,
  match m s with
  | (Ok a, s') => f a s'
  | (Raise e, s') => (Raise e, s')
  end.

Definition lift {A} (r : Result A) : M A := λ s, (r, s).

Definition emit (e : Event) : M () := λ s,
  (Ok (), {| tensors := tensors s; trace := trace s ++ [e] |}).

(** A new tensor object holding [v]. *)
Definition tensor_new (v : list Z) : M nat := λ s,
  let r := fresh (dom (tensors s)) in
  (Ok r, {| tensors := <[r := v]> (tensors s); trace := trace s |}).

Definition tensor_read (r : nat) : M (list Z) := λ s,
  match tensors s !! r with
  | Some v => (Ok v, s)
  | None => (Raise RuntimeError, s)
  end.

(** [t.clone()] *)
Definition tensor_clone (r : nat) : M nat :=
  v ← tensor_read r; tensor_new v.

(** [t[0, i] = x], in place: an index outside the tensor is an
    [IndexError].  An index that is no 64-bit integer, which PyTorch
    refuses before it looks at the tensor, is outside the embedding. *)
Definition tensor_setitem (r : nat) (i x : Z) : M () := λ s,
  match tensors s !! r with
  | Some v => match setitem v i x with
              | Ok v' => (Ok (), {| tensors := <[r := v']> (tensors s);
                                    trace := trace s |})
              | Raise e => (Raise e, s)
              end
  | None => (Raise RuntimeError, s)
  end.

(** [t[0, i].item()] *)
Definition tensor_getitem (r : nat) (i : Z) : M Z :=
  v ← tensor_read r; lift (getitem v i).

(** [for x in xs: body], the loop's variables threaded through [acc]. *)
Fixpoint for_in {T : Type → Type} `{!MRet T, !MBind T} {A S}
    (xs : list A) (body : A → S → T S) (acc : S) : T S :=
  match xs with
  | [] => mret acc
  | x :: xs' => acc' ← body x acc; for_in xs' body acc'
  end.

(** What the notebook imports and the scorer calls:
    [AutoTokenizer.from_pretrained] and [EsmForMaskedLM.from_pretrained]
    of the [transformers] library, and [torch.nn.functional.softmax]
    (along dimension 0 of a vector) and [torch.log] (element-wise). *)
Class Imports := {
  AutoTokenizer_from_pretrained : string → Tokenizer;
  EsmForMaskedLM_from_pretrained : string → Model;
  softmax : list float → list float;
  torch_log : float → float
}.

(** ** The scorer *)

Section scorer.

Context `{!Imports}.

Definition model_name : string := "facebook/esm2_t6_8M_UR50D".

Definition amino_acids : list string := list_str "ACDEFGHIKLMNPQRSTVWY".

(** The body of the inner loop:
    [log_prob_mt = log_probabilities[tokenizer.convert_tokens_to_ids(amino_acid)].item()]
    and [heatmap[i, position - start_pos] = log_prob_mt - log_prob_wt]. *)
Definition score_variant (tokenizer : Tokenizer)
    (log_probabilities : list float) (log_prob_wt : float)
    (start_pos position : Z) (entry : Z * string) (heatmap : ndarray)
    : Result ndarray :=
  let '(i, amino_acid) := entry in
  log_prob_mt ← getitem log_probabilities
                  (convert_tokens_to_ids tokenizer amino_acid);
  ndarray_setitem heatmap i (position - start_pos)
    (log_prob_mt - log_prob_wt)%float.

(** The body of the loop over positions. *)
Definition score_position (tokenizer : Tokenizer) (model : Model)
    (input_ids : nat) (start_pos position : Z) (heatmap : ndarray)
    : M ndarray :=
  (* Mask the target position *)
  masked_input_ids ← tensor_clone input_ids;
  tensor_setitem masked_input_ids position (mask_token_id tokenizer);;
  (* Get logits for the masked token *)
  masked ← tensor_read masked_input_ids;
  emit (forward_pass masked);;
  let logits := model masked in
  (* Calculate log probabilities *)
  row ← lift (getitem logits position);
  let probabilities := softmax row in
  let log_probabilities := torch_log <$> probabilities in
  (* Get the log probability of the wild-type residue *)
  wt_residue ← tensor_getitem input_ids position;
  log_prob_wt ← lift (getitem log_probabilities wt_residue);
  (* Calculate LLR for each variant *)
  lift (for_in (enumerate amino_acids)
          (score_variant tokenizer log_probabilities log_prob_wt
             start_pos position)
          heatmap).

(** [generate_heatmap] up to the end of its loops: the array [heatmap]
    it has built and the [end_pos] it has settled on. *)
Definition generate_heatmap_llr (protein_sequence : string)
    (start_pos : Z) (end_pos : option Z) : M (ndarray * Z) :=
  (* Load the model and tokenizer *)
  let tokenizer := AutoTokenizer_from_pretrained model_name in
  emit (AutoTokenizer_loaded model_name);;
  let model := EsmForMaskedLM_from_pretrained model_name in
  emit (EsmForMaskedLM_loaded model_name);;
  (* Tokenize the input sequence *)
  input_ids ← tensor_new (encode tokenizer protein_sequence);
  ids ← tensor_read input_ids;
  let sequence_length := Z.of_nat (length ids) - 2 in
  (* Adjust end position if not specified *)
  let end_pos := default sequence_length end_pos in
  (* Initialize heatmap *)
  heatmap ← lift (np_zeros 20 (end_pos - start_pos + 1));
  (* Calculate LLRs for each position and amino acid *)
  heatmap ← for_in (py_range start_pos (end_pos + 1))
              (score_position tokenizer model input_ids start_pos)
              heatmap;
  mret (heatmap, end_pos).

(** [plt.xticks(ticks, labels)]: matplotlib refuses, with a
    [ValueError], labels that are not as many as the ticks, unless there
    is no label at all. *)
Definition plt_xticks (ticks : list Z) (labels : list string) : Result () :=
  if decide (labels ≠ [] ∧ length labels ≠ length ticks)
  then Raise ValueError
  else Ok ().

(** [generate_heatmap(protein_sequence, start_pos=1, end_pos=None)]:
    the table, then the plot.  Of the plot the embedding keeps what the
    function computes for it: the array shown, the tick positions
    [range(end_pos - start_pos + 1)] and the tick labels
    [list(protein_sequence[start_pos-1:end_pos])], and the one call of the
    block that can fail on them, [plt.xticks] ([plt.yticks] gets 20 ticks
    and the 20 amino acids, which it accepts).  The event [plt_show] is
    the call of [plt.show()] that ends the block; [plt.figure] and
    [plt.imshow], which come before [plt.xticks], leave no event, so the
    figure they have built when [plt.xticks] raises is not in the trace.
    The function returns [None]. *)
Definition generate_heatmap (protein_sequence : string)
    (start_pos : Z) (end_pos : option Z) : M () :=
  '(heatmap, end_pos) ← generate_heatmap_llr protein_sequence start_pos end_pos;
  let xticks := py_range 0 (end_pos - start_pos + 1) in
  let xlabels :=
    py_slice (list_str protein_sequence) (start_pos - 1) end_pos in
  lift (plt_xticks xticks xlabels);;
  emit (plt_show heatmap xticks xlabels).

(** The callback of the two sliders in [interactive_heatmap]. *)
Definition update_heatmap (protein_sequence : string) (start end_ : Z)
    : M () :=
  if decide (start ≤ end_)
  then generate_heatmap protein_sequence start (Some end_)
  else mret ().

End scorer.

(** ** An instance to run the scorer on

    The vocabulary of the ESM-2 checkpoints as the [transformers] library
    ships it (33 tokens: the sequence is framed by [<cls>] and [<eos>], a
    token that is not in the vocabulary becomes [<unk>]), and executable
    stand-ins for the model and for the two PyTorch functions, precise
    enough to run the notebook's function on examples. *)

Module Esm2.

Definition vocabulary : list string :=
  ["<cls>"; "<pad>"; "<eos>"; "<unk>";
   "L"; "A"; "G"; "V"; "S"; "E"; "R"; "T"; "I"; "D"; "P"; "K"; "Q"; "N";
   "F"; "Y"; "M"; "H"; "W"; "C"; "X"; "B"; "U"; "Z"; "O"; "."; "-";
   "<null_1>"; "<mask>"].

Definition vocab_size : nat := length vocabulary.

Definition token_id (token : string) : Z :=
  match list_find (λ t, t = token) vocabulary with
  | Some (i, _) => Z.of_nat i
  | None => 3
  end.

Definition tokenizer : Tokenizer := {|
  encode := λ s, 0 :: (token_id <$> list_str s) ++ [2];
  mask_token_id := 32;
  convert_tokens_to_ids := token_id
|}.

(** [exp] by [(1 + x / 2^10)^(2^10)], [log] by Halley's iteration on it. *)
Definition exp_approx (x : float) : float :=
  Nat.iter 10 (λ y, y * y)%float (1 + x / 1024)%float.

Definition log_approx (x : float) : float :=
  Nat.iter 24 (λ y, let e := exp_approx y in y + 2 * (x - e) / (x + e))%float
    0%float.

Definition softmax (row : list float) : list float :=
  let m := foldr (λ x y, if (x <? y)%float then y else x) neg_infinity row in
  let es := (λ x, exp_approx (x - m)) <$> row in
  let total := foldr PrimFloat.add 0%float es in
  (λ e, e / total)%float <$> es.

(** A model with a shape of the right kind: one row of [vocab_size]
    scores per input token, each depending on the whole input. *)
Definition model : Model := λ ids,
  let total := foldr Z.add 0 ids in
  imap (λ j id,
          (λ v, (PrimFloat.of_uint63
                   (Uint63.of_Z ((total + 3 * id + 5 * v + Z.of_nat j) `mod` 13))
                 / 4 - 1)%float)
            <$> seqZ 0 (Z.of_nat vocab_size))
       ids.

Definition initial : State := {| tensors := ∅; trace := [] |}.

End Esm2.

(** Every name of the hub stands for this tokenizer and this model. *)
#[global] Instance Esm2_imports : Imports := {|
  AutoTokenizer_from_pretrained := λ _, Esm2.tokenizer;
  EsmForMaskedLM_from_pretrained := λ _, Esm2.model;
  softmax := Esm2.softmax;
  torch_log := Esm2.log_approx
|}.

(** ** An instance in which a probability underflows

    A model so sure of one token, [L], that softmax gives every other
    token the probability 0: its score is 0 and every other score is
    -1024, where the stand-in for [exp] is exactly 0, as the float32
    exponential of PyTorch is for a score that far below the largest.  The
    logarithm is the one of [Esm2] with the value of [torch.log] at 0,
    minus infinity. *)

Module Underflow.

Definition model : Model := λ ids,
  (λ _, (λ v, if decide (v = 4) then 0%float else (-1024)%float)
          <$> seqZ 0 (Z.of_nat Esm2.vocab_size))
    <$> ids.

Definition log (x : float) : float :=
  if (x =? 0)%float then neg_infinity else Esm2.log_approx x.

Definition imports : Imports := {|
  AutoTokenizer_from_pretrained := λ _, Esm2.tokenizer;
  EsmForMaskedLM_from_pretrained := λ _, model;
  softmax := Esm2.softmax;
  torch_log := log
|}.

End Underflow.

(** ** Vocabulary of the specification *)

(** The entry of an array at row [i] and column [j]. *)
Definition cell (a : ndarray) (i j : nat) : option float :=
  row ← a !! i; row !! j.

Definition shape (a : ndarray) (rows cols : nat) : Prop :=
  length a = rows ∧ Forall (λ row, length row = cols) a.

(** The inputs of the forward passes of a trace, in order. *)
Definition forward_passes (t : list Event) : list (list Z) :=
  omap (λ e, match e with forward_pass ids => Some ids | _ => None end) t.

Definition is_load (e : Event) : bool :=
  match e with
  | AutoTokenizer_loaded _ | EsmForMaskedLM_loaded _ => true
  | _ => false
  end.

(** The copy of the tokenized sequence with index [p] masked. *)
Definition masked_at (tokenizer : Tokenizer) (ids : list Z) (p : Z) : list Z :=
  <[Z.to_nat p := mask_token_id tokenizer]> ids.

(** log(softmax(logits at index [p])) of the forward pass on [masked]. *)
Definition log_softmax_at `{!Imports} (model : Model) (masked : list Z) (p : Z)
    : list float :=
  torch_log <$> softmax (model masked !!! Z.to_nat p).

(** The log-probability of the wild type at position [p]: the entry, at
    the id that [ids] holds at [p], of the distribution at index [p] of the
    forward pass on the copy masked at [p]. *)
Definition log_prob_wt_at `{!Imports} (tokenizer : Tokenizer) (model : Model)
    (ids : list Z) (p : Z) : option float :=
  wt_residue ← ids !! Z.to_nat p;
  log_softmax_at model (masked_at tokenizer ids p) p !! Z.to_nat wt_residue.

(** The sequence is over the 20-letter alphabet. *)
Definition over_alphabet (protein_sequence : string) : Prop :=
  Forall (λ c, c ∈ amino_acids) (list_str protein_sequence).

#[global] Instance over_alphabet_dec (s : string) : Decision (over_alphabet s).
Proof. unfold over_alphabet. apply _. Defined.

(** What the scorer relies on of the library: the logits have one row per
    input token and one column per vocabulary entry, and softmax keeps the
    length of a vector. *)
Record Shapes `{!Imports} (model : Model) (vocab_size : nat) : Prop := {
  logits_rows : ∀ ids, length (model ids) = length ids;
  logits_cols : ∀ ids row, row ∈ model ids → length row = vocab_size;
  softmax_length : ∀ row, length (softmax row) = length row
}.

(** What it relies on of the tokenizer: each of the 20 amino acids has an
    id in the vocabulary, and a sequence over the alphabet is encoded
    residue by residue between the two sentinels. *)
Record Frames (tokenizer : Tokenizer) (vocab_size : nat) : Prop := {
  amino_acid_ids : ∀ a, a ∈ amino_acids →
    0 ≤ convert_tokens_to_ids tokenizer a < Z.of_nat vocab_size;
  encode_frames : ∀ s, over_alphabet s → ∃ cls eos,
    encode tokenizer s
    = cls :: (convert_tokens_to_ids tokenizer <$> list_str s) ++ [eos]
}.

(** The tokenizer turns [s], whatever its symbols, into [len(s) + 2] ids
    of the vocabulary, and [convert_tokens_to_ids] answers each of the 20
    amino acids with an id of the vocabulary, whichever it is. *)
Definition encodable (tokenizer : Tokenizer) (vocab_size : nat) (s : string)
    : Prop :=
  length (encode tokenizer s) = S (S (String.length s))
  ∧ Forall (λ t, 0 ≤ t < Z.of_nat vocab_size) (encode tokenizer s)
  ∧ Forall (λ a, 0 ≤ convert_tokens_to_ids tokenizer a < Z.of_nat vocab_size)
      amino_acids.

#[global] Instance encodable_dec (tokenizer : Tokenizer) (vocab_size : nat)
  (s : string) : Decision (encodable tokenizer vocab_size s).
Proof. unfold encodable. apply _. Defined.

(** ** What the loops compute, as functions of the tokenized sequence *)

Section denotation.

Context `{!Imports}.
Variables (tokenizer : Tokenizer) (model : Model).

(** The value the inner loop stores for amino acid [a]. *)
Definition variant_llr (log_probabilities : list float) (log_prob_wt : float)
    (a : string) : option float :=
  (λ log_prob_mt, (log_prob_mt - log_prob_wt)%float)
    <$> log_probabilities !! Z.to_nat (convert_tokens_to_ids tokenizer a).

(** One iteration once the masked copy [masked] of [ids] has been made. *)
Definition score_masked (ids masked : list Z) (start_pos position : Z)
    (heatmap : ndarray) : Result ndarray :=
  row ← getitem (model masked) position;
  let log_probabilities := torch_log <$> softmax row in
  wt_residue ← getitem ids position;
  log_prob_wt ← getitem log_probabilities wt_residue;
  for_in (enumerate amino_acids)
    (score_variant tokenizer log_probabilities log_prob_wt start_pos position)
    heatmap.

(** The result of the loop and the events it emits, as functions of the
    contents [ids] of the tensor [input_ids]. *)
Fixpoint positions_outcome (ids : list Z) (start_pos : Z) (positions : list Z)
    (heatmap : ndarray) : Result ndarray * list Event :=
  match positions with
  | [] => (Ok heatmap, [])
  | position :: positions' =>
      match setitem ids position (mask_token_id tokenizer) with
      | Raise e => (Raise e, [])
      | Ok masked =>
          match score_masked ids masked start_pos position heatmap with
          | Raise e => (Raise e, [forward_pass masked])
          | Ok heatmap' =>
              let '(r, events) :=
                positions_outcome ids start_pos positions' heatmap' in
              (r, forward_pass masked :: events)
          end
      end
  end.

(** The LLR of amino acid [a] at position [p]: both log-probabilities are
    read from the distribution at index [p] of the forward pass on the copy
    masked at [p], the wild type at the id that [ids] holds at [p]. *)
Definition position_llr (ids : list Z) (p : Z) (a : string) : option float :=
  let log_probabilities :=
    log_softmax_at model (masked_at tokenizer ids p) p in
  wt_residue ← ids !! Z.to_nat p;
  log_prob_wt ← log_probabilities !! Z.to_nat wt_residue;
  variant_llr log_probabilities log_prob_wt a.

(** Position [p] can be scored: it is an index of [ids], the id there is
    one of the vocabulary, and its column is one of the table. *)
Definition scorable (vocab_size : nat) (ids : list Z) (start_pos : Z)
    (cols : nat) (p : Z) : Prop :=
  0 ≤ p ∧ 0 ≤ p - start_pos < Z.of_nat cols
  ∧ ∃ wt, ids !! Z.to_nat p = Some wt ∧ 0 ≤ wt < Z.of_nat vocab_size.

End denotation.

Section outcomes.

Context `{!Imports}.

#[local] Abbreviation tokenizer := (AutoTokenizer_from_pretrained model_name).
#[local] Abbreviation model := (EsmForMaskedLM_from_pretrained model_name).

Definition loads : list Event :=
  [AutoTokenizer_loaded model_name; EsmForMaskedLM_loaded model_name].

(** The result and the events of a call, whatever the state it starts in. *)
Definition llr_outcome (protein_sequence : string) (start_pos : Z)
    (end_pos : option Z) : Result (ndarray * Z) * list Event :=
  let ids := encode tokenizer protein_sequence in
  let end_pos := default (Z.of_nat (length ids) - 2) end_pos in
  match np_zeros 20 (end_pos - start_pos + 1) with
  | Raise e => (Raise e, loads)
  | Ok heatmap =>
      let '(r, events) :=
        positions_outcome tokenizer model ids start_pos
          (py_range start_pos (end_pos + 1)) heatmap in
      (heatmap' ← r; Ok (heatmap', end_pos), loads ++ events)
  end.

Definition heatmap_outcome (protein_sequence : string) (start_pos : Z)
    (end_pos : option Z) : Result () * list Event :=
  match llr_outcome protein_sequence start_pos end_pos with
  | (Ok (heatmap, end_pos), events) =>
      let xticks := py_range 0 (end_pos - start_pos + 1) in
      let xlabels :=
        py_slice (list_str protein_sequence) (start_pos - 1) end_pos in
      match plt_xticks xticks xlabels with
      | Ok _ => (Ok (), events ++ [plt_show heatmap xticks xlabels])
      | Raise e => (Raise e, events)
      end
  | (Raise e, events) => (Raise e, events)
  end.

End outcomes.

(** ** The widgets of [interactive_heatmap]

    The two sliders it builds; their callback is [update_heatmap]. *)

Record IntSlider := {
  value : Z;
  min : Z;
  max : Z;
  step : Z;
  description : string
}.

Definition start_slider (protein_sequence : string) : IntSlider := {|
  value := 1;
  min := 1;
  max := Z.of_nat (String.length protein_sequence);
  step := 1;
  description := "Start:"
|}.

Definition end_slider (protein_sequence : string) : IntSlider := {|
  value := Z.of_nat (String.length protein_sequence);
  min := 1;
  max := Z.of_nat (String.length protein_sequence);
  step := 1;
  description := "End:"
|}.

(** A value the slider can take. *)
Definition slider_value (slider : IntSlider) (v : Z) : Prop :=
  min slider ≤ v ≤ max slider.

(** The calls of [plt.show()] of a trace, in order, each with the table,
    the ticks and the labels of the figure it shows. *)
Definition plots (t : list Event) : list (ndarray * list Z * list string) :=
  omap (λ e, match e with
             | plt_show heatmap xticks xlabels => Some (heatmap, xticks, xlabels)
             | _ => None
             end) t.

(** The [end_pos] a call works with, [ids] being the tokenized sequence. *)
Definition adjusted_end (ids : list Z) (end_pos : option Z) : Z :=
  default (Z.of_nat (length ids) - 2) end_pos.

(** [ids] with the index that [p] denotes, as Python counts, masked. *)
Definition masked_at_index (tokenizer : Tokenizer) (ids : list Z) (p : Z)
    : option (list Z) :=
  k ← py_index (length ids) p; Some (<[k := mask_token_id tokenizer]> ids).

(** * The job script [bash_scripts/esm_example.sh]

    Its arguments are read with [getopts "a:s:o:" opt]; each option sets
    one variable, anything else prints the usage line on standard error
    and exits with status 1; after the loop three lines are echoed. *)

Module JobScript.
Import Strings.Ascii.

(** ** [getopts]

    The builtin of bash, for an option string that does not begin with a
    colon and with [OPTERR] as the shell starts it, so that [getopts]
    writes its own message on standard error before it gives [?].  Its
    state is the arguments not read yet (what [OPTIND] stands for) and the
    rest of the argument that is being read, when it holds several
    options. *)
Record getopts_state := {
  unread : list string;
  nextchar : string
}.

Inductive getopts_result :=
  | option_found (c : ascii) (OPTARG : option string)
  | illegal_option (c : ascii)              (* sets the name to [?] *)
  | option_requires_argument (c : ascii)    (* sets the name to [?] *)
  | end_of_options.                         (* a non-zero status *)

(** Whether [optstring] lists [c], and followed by a colon. *)
Fixpoint optstring_lookup (optstring : string) (c : ascii) : option bool :=
  match optstring with
  | EmptyString => None
  | String d rest =>
      if decide (c = d)
      then Some (match rest with String ":"%char _ => true | _ => false end)
      else optstring_lookup rest c
  end.

(** The option character [c], [rest_of_arg] being what follows it in its
    argument and [unread] the arguments after that one. *)
Definition process_option (optstring : string) (c : ascii)
    (rest_of_arg : string) (unread : list string)
    : getopts_result * getopts_state :=
  match (if decide (c = ":"%char) then None else optstring_lookup optstring c) with
  | None =>
      (illegal_option c, {| unread := unread; nextchar := rest_of_arg |})
  | Some false =>
      (option_found c None, {| unread := unread; nextchar := rest_of_arg |})
  | Some true =>
      match rest_of_arg, unread with
      | String _ _, _ =>
          (option_found c (Some rest_of_arg),
           {| unread := unread; nextchar := "" |})
      | EmptyString, [] =>
          (option_requires_argument c, {| unread := []; nextchar := "" |})
      | EmptyString, optarg :: unread' =>
          (option_found c (Some optarg),
           {| unread := unread'; nextchar := "" |})
      end
  end.

Definition getopts (optstring : string) (st : getopts_state)
    : getopts_result * getopts_state :=
  match nextchar st with
  | String c rest_of_arg => process_option optstring c rest_of_arg (unread st)
  | EmptyString =>
      match unread st with
      | [] => (end_of_options, st)
      | arg :: unread' =>
          if decide (arg = "--")
          then (end_of_options, {| unread := unread'; nextchar := "" |})
          else match arg with
               | String "-"%char (String c rest_of_arg) =>
                   process_option optstring c rest_of_arg unread'
               | _ => (end_of_options, st)
               end
      end
  end.

(** ** The script *)

(** The three variables (unset reads as the empty string) and what has
    been written to standard output and standard error, line by line. *)
Record Shell := {
  app : string;
  sequence : string;
  output_file : string;
  stdout : list string;
  stderr : list string
}.

Definition set_app (v : string) (sh : Shell) : Shell :=
  {| app := v; sequence := sequence sh; output_file := output_file sh;
     stdout := stdout sh; stderr := stderr sh |}.

Definition set_sequence (v : string) (sh : Shell) : Shell :=
  {| app := app sh; sequence := v; output_file := output_file sh;
     stdout := stdout sh; stderr := stderr sh |}.

Definition set_output_file (v : string) (sh : Shell) : Shell :=
  {| app := app sh; sequence := sequence sh; output_file := v;
     stdout := stdout sh; stderr := stderr sh |}.

Definition echo (line : string) (sh : Shell) : Shell :=
  {| app := app sh; sequence := sequence sh; output_file := output_file sh;
     stdout := stdout sh ++ [line]; stderr := stderr sh |}.

Definition echo_stderr (line : string) (sh : Shell) : Shell :=
  {| app := app sh; sequence := sequence sh; output_file := output_file sh;
     stdout := stdout sh; stderr := stderr sh ++ [line] |}.

Definition usage (name : string) : string :=
  "Usage: " +:+ name +:+ " [-a app] [-s sequence] [-o output file]".

(** What [getopts] itself writes before it gives [?]. *)
Definition illegal_option_message (name : string) (c : ascii) : string :=
  name +:+ ": illegal option -- " +:+ String c "".

Definition requires_argument_message (name : string) (c : ascii) : string :=
  name +:+ ": option requires an argument -- " +:+ String c "".

(** The last branch of the [case], which takes any other value of [opt]:
    the usage line on standard error, then [exit 1]. *)
Definition usage_exit (name : string) (sh : Shell) : option Z * Shell :=
  (Some 1, echo_stderr (usage name) sh).

(** [while getopts "a:s:o:" opt; do case "$opt" in ... esac; done]: the
    exit status when the loop has called [exit], and the shell.  [fuel]
    bounds the number of rounds. *)
Fixpoint while_getopts (fuel : nat) (name : string) (st : getopts_state)
    (sh : Shell) : option (option Z * Shell) :=
  match fuel with
  | O => None
  | S fuel' =>
      match getopts "a:s:o:" st with
      | (end_of_options, _) => Some (None, sh)
      | (option_found c OPTARG, st') =>
          let OPTARG := default "" OPTARG in
          if decide (c = "a"%char)
          then while_getopts fuel' name st' (set_app OPTARG sh)
          else if decide (c = "s"%char)
          then while_getopts fuel' name st' (set_sequence OPTARG sh)
          else if decide (c = "o"%char)
          then while_getopts fuel' name st' (set_output_file OPTARG sh)
          else Some (usage_exit name sh)
      | (illegal_option c, _) =>
          Some (usage_exit name (echo_stderr (illegal_option_message name c) sh))
      | (option_requires_argument c, _) =>
          Some (usage_exit name
                  (echo_stderr (requires_argument_message name c) sh))
      end
  end.

(** The three [echo] lines after the loop. *)
Definition report (sh : Shell) : Shell :=
  echo ("OUT " +:+ output_file sh)
    (echo ("SEQ " +:+ sequence sh)
       (echo ("APP " +:+ app sh +:+ " " +:+ sequence sh +:+ " "
              +:+ output_file sh) sh)).

(** A round reads at least one character of the arguments. *)
Definition rounds (args : list string) : nat :=
  S (foldr (λ arg n, (S (String.length arg) + n)%nat) O args).

(** The script, called as [name] with [args], the three variables being
    as [sh] has them: its exit status and the shell it leaves. *)
Definition esm_example (name : string) (args : list string) (sh : Shell)
    : option (Z * Shell) :=
  match while_getopts (rounds args) name
          {| unread := args; nextchar := "" |} sh with
  | Some (Some status, sh') => Some (status, sh')
  | Some (None, sh') => Some (0, report sh')
  | None => None
  end.

(** ** What the loop amounts to, by recursion on the arguments *)

Definition is_option (c : ascii) : bool :=
  bool_decide (c = "a"%char ∨ c = "s"%char ∨ c = "o"%char).

Definition set_option (c : ascii) (v : string) (sh : Shell) : Shell :=
  if decide (c = "a"%char) then set_app v sh
  else if decide (c = "s"%char) then set_sequence v sh
  else set_output_file v sh.

Fixpoint read_arguments (name : string) (args : list string) (sh : Shell)
    : option Z * Shell :=
  match args with
  | [] => (None, sh)
  | arg :: rest =>
      if decide (arg = "--") then (None, sh)
      else match arg with
           | String "-"%char (String c rest_of_arg) =>
               if is_option c
               then match rest_of_arg, rest with
                    | String _ _, _ =>
                        read_arguments name rest (set_option c rest_of_arg sh)
                    | EmptyString, [] =>
                        usage_exit name
                          (echo_stderr (requires_argument_message name c) sh)
                    | EmptyString, optarg :: rest' =>
                        read_arguments name rest' (set_option c optarg sh)
                    end
               else usage_exit name
                      (echo_stderr (illegal_option_message name c) sh)
           | _ => (None, sh)
           end
  end.

(** The arguments [-c value] for each pair of [items], in order. *)
Definition option_args (items : list (ascii * string)) : list string :=
  items ≫= λ '(c, v), [String "-"%char (String c ""); v].

(** The value that the last [-c] of [items] gives, [v0] when there is none. *)
Definition last_value (c : ascii) (items : list (ascii * string)) (v0 : string)
    : string :=
  foldl (λ v '(d, w), if decide (d = c) then w else v) v0 items.

(** The variables after the options [items], read in order. *)
Definition set_options (items : list (ascii * string)) (sh : Shell) : Shell :=
  foldl (λ sh '(c, v), set_option c v sh) sh items.

(** An argument at which [getopts] stops reading options. *)
Definition is_operand (arg : string) : Prop :=
  match arg with
  | String "-"%char (String _ _) => arg = "--"
  | _ => True
  end.

End JobScript.

(** * The exports of the environment script

    [export PATH=...], [export CUDA_PATH=...] and the two
    [export LD_LIBRARY_PATH=...] of the script that sets the session up,
    as a function of the environment that the two [module load] lines
    leave. *)

Module EnvScript.
Import Strings.Ascii.

Abbreviation Env := (gmap string string).

(** [$x] *)
Definition expand (env : Env) (x : string) : string := default "" (env !! x).

(** [${x:+word}]: [word] when [x] is set and not empty, else nothing. *)
Definition expand_alternative (env : Env) (x word : string) : string :=
  match env !! x with
  | Some (String _ _) => word
  | _ => ""
  end.

Definition exports (env : Env) : Env :=
  let env :=
    <["PATH" := "/n/data1/hms/ccb/projects/esm/cuda/bin:"
                +:+ expand_alternative env "PATH" (":" +:+ expand env "PATH")]>
      env in
  let env := <["CUDA_PATH" := "/n/data1/hms/ccb/projects/esm/cuda"]> env in
  let env :=
    <["LD_LIBRARY_PATH" :=
        "/n/data1/hms/ccb/projects/esm/cuda/lib64:"
        +:+ expand_alternative env "LD_LIBRARY_PATH"
              (":" +:+ expand env "LD_LIBRARY_PATH")]> env in
  <["LD_LIBRARY_PATH" :=
      expand env "LD_LIBRARY_PATH"
      +:+ ":/n/data1/hms/ccb/projects/esm/cuda/extras/CUPTI/lib64"]> env.

(** The entries of a search path: what stands between its colons. *)
Fixpoint path_entries (path : string) : list string :=
  match path with
  | EmptyString => [""]
  | String c path' =>
      if decide (c = ":"%char) then "" :: path_entries path'
      else match path_entries path' with
           | entry :: entries => String c entry :: entries
           | [] => [String c ""]
           end
  end.

(** The entries of the value of [x], none when [x] is unset or empty. *)
Definition entries_of (env : Env) (x : string) : list string :=
  match env !! x with
  | Some (String c path) => path_entries (String c path)
  | _ => []
  end.

End EnvScript.

(** A decidable proposition about closed terms, settled by evaluation. *)
Ltac by_computation := apply (bool_decide_unpack _); vm_compute; exact I.

(** ** Python floats: subtracting a finite number from itself

    The difference is [+0.0]; of an infinity with itself it is not a
    number, which is why the wild-type row needs a finite log-probability. *)

Lemma float_sub_diag (x : float) :
  PrimFloat.is_finite x = true → (x - x)%float = 0%float.
Proof.
  intros Hfin. apply Prim2SF_inj. rewrite sub_spec.
  unfold PrimFloat.is_finite, PrimFloat.is_nan, PrimFloat.is_infinity in Hfin.
  rewrite !eqb_spec, abs_spec in Hfin.
  destruct (Prim2SF x) as [s|s| |s m e]; simpl in *; try discriminate.
  - by destruct s.
  - by destruct s; vm_compute in Hfin.
  - unfold SF64sub, SFsub. by rewrite Z.sub_diag.
Qed.

Lemma float_sub_diag_infinite :
  (neg_infinity - neg_infinity)%float = nan.
Proof. reflexivity. Qed.

(** An infinity or a NaN subtracted from itself is not a number. *)
Lemma float_sub_diag_not_finite (x : float) :
  PrimFloat.is_finite x = false → (x - x)%float = nan.
Proof.
  intros Hfin. apply Prim2SF_inj. rewrite sub_spec.
  unfold PrimFloat.is_finite, PrimFloat.is_nan, PrimFloat.is_infinity in Hfin.
  rewrite !eqb_spec, abs_spec in Hfin.
  destruct (Prim2SF x) as [s|s| |s m e]; simpl in *.
  - by destruct s.
  - by destruct s.
  - done.
  - exfalso. revert Hfin. unfold SFeqb, SFcompare, SFabs. simpl.
    rewrite Z.compare_refl.
    change (PosDef.Pos.compare_cont Eq m m) with (Pos.compare m m).
    rewrite Pos.compare_refl. by destruct s.
Qed.

(** ** Indexing *)

Lemma bind_Ok {A B} (a : A) (f : A → Result B) : Ok a ≫= f = f a.
Proof. done. Qed.

Lemma py_index_nonneg (n : nat) (i : Z) :
  0 ≤ i < Z.of_nat n → py_index n i = Some (Z.to_nat i).
Proof. intros. unfold py_index. by rewrite decide_True. Qed.

Lemma getitem_nonneg {A} (l : list A) (i : Z) (x : A) :
  0 ≤ i → l !! Z.to_nat i = Some x → getitem l i = Ok x.
Proof.
  intros Hi Hx. unfold getitem.
  rewrite py_index_nonneg by (apply lookup_lt_Some in Hx; lia).
  by rewrite Hx.
Qed.

Lemma setitem_nonneg {A} (l : list A) (i : Z) (x : A) :
  0 ≤ i < Z.of_nat (length l) → setitem l i x = Ok (<[Z.to_nat i := x]> l).
Proof. intros. unfold setitem. by rewrite py_index_nonneg. Qed.

Lemma length_list_str (s : string) : length (list_str s) = String.length s.
Proof. induction s; simpl; congruence. Qed.

Lemma py_range_nil (a b : Z) : b ≤ a → py_range a b = [].
Proof. intros. unfold py_range. apply seqZ_nil. lia. Qed.

(** ** Arrays *)

Lemma shape_lookup (a : ndarray) (rows cols i : nat) (row : list float) :
  shape a rows cols → a !! i = Some row → length row = cols.
Proof.
  intros [_ Hall] Hrow. rewrite Forall_lookup in Hall. by eapply Hall.
Qed.

Lemma np_zeros_shape (rows cols : Z) :
  0 ≤ rows → 0 ≤ cols →
  ∃ a, np_zeros rows cols = Ok a ∧ shape a (Z.to_nat rows) (Z.to_nat cols).
Proof.
  intros. unfold np_zeros. rewrite decide_False by lia.
  eexists; split; [done|]. split; [by rewrite length_replicate|].
  apply Forall_replicate. by rewrite length_replicate.
Qed.

Lemma ndarray_setitem_ok (a : ndarray) (rows cols : nat) (i j : Z) (v : float) :
  shape a rows cols → 0 ≤ i < Z.of_nat rows → 0 ≤ j < Z.of_nat cols →
  ∃ a', ndarray_setitem a i j v = Ok a' ∧ shape a' rows cols ∧
    ∀ i' j', cell a' i' j'
             = if decide (i' = Z.to_nat i ∧ j' = Z.to_nat j) then Some v
               else cell a i' j'.
Proof.
  intros Hshape Hi Hj.
  destruct (lookup_lt_is_Some_2 a (Z.to_nat i)) as [row Hrow];
    [destruct Hshape; lia|].
  pose proof (shape_lookup _ _ _ _ _ Hshape Hrow) as Hlen.
  destruct Hshape as [Hrows Hall].
  unfold ndarray_setitem.
  rewrite (getitem_nonneg _ _ row) by (done || lia). simpl.
  rewrite setitem_nonneg by lia. simpl.
  rewrite setitem_nonneg by lia.
  eexists; split; [done|]. split.
  { split; [by rewrite length_insert|].
    apply Forall_insert; [done|]. by rewrite length_insert. }
  intros i' j'. unfold cell. case_decide as Hij.
  - destruct Hij as [-> ->].
    rewrite list_lookup_insert_eq by lia. simpl.
    apply list_lookup_insert_eq. lia.
  - destruct (decide (i' = Z.to_nat i)) as [->|Hne].
    + rewrite list_lookup_insert_eq by lia. rewrite Hrow. simpl.
      apply list_lookup_insert_ne. intros <-. by apply Hij.
    + by rewrite list_lookup_insert_ne.
Qed.

(** ** The loop over the 20 amino acids writes one column *)

Section column.

Variable tokenizer : Tokenizer.
Variables (log_probabilities : list float) (log_prob_wt : float).
Variables (start_pos position : Z).

Lemma score_variants_from (entries : list string) :
  ∀ (k : nat) (heatmap : ndarray) (rows cols : nat),
  shape heatmap rows cols →
  (k + length entries ≤ rows)%nat →
  0 ≤ position - start_pos < Z.of_nat cols →
  (∀ a, a ∈ entries →
     0 ≤ convert_tokens_to_ids tokenizer a
         < Z.of_nat (length log_probabilities)) →
  ∃ heatmap',
    for_in (imap (λ i a, (Z.of_nat (k + i), a)) entries)
      (score_variant tokenizer log_probabilities log_prob_wt
         start_pos position) heatmap = Ok heatmap'
    ∧ shape heatmap' rows cols
    ∧ ∀ i j, cell heatmap' i j
             = if decide (j = Z.to_nat (position - start_pos)
                          ∧ (k ≤ i < k + length entries)%nat)
               then a ← entries !! (i - k)%nat; variant_llr tokenizer log_probabilities log_prob_wt a
               else cell heatmap i j.
Proof.
  induction entries as [|a entries IH]; intros k heatmap rows cols Hshape Hk Hcol Hids.
  - exists heatmap. split; [done|]. split; [done|].
    intros i j. rewrite decide_False; [done|]. simpl. lia.
  - simpl in Hk.
    destruct (Hids a) as [Ha0 Ha1]; [by left|].
    destruct (lookup_lt_is_Some_2 log_probabilities
                (Z.to_nat (convert_tokens_to_ids tokenizer a)))
      as [x Hx]; [lia|].
    destruct (ndarray_setitem_ok heatmap rows cols
                (Z.of_nat (k + 0)) (position - start_pos)
                (x - log_prob_wt)%float) as (hm1 & Hset & Hshape1 & Hcell1);
      [done|lia|done|].
    destruct (IH (S k) hm1 rows cols) as (hm2 & Hrun & Hshape2 & Hcell2);
      [done|lia|done|by intros; apply Hids; right|].
    exists hm2. split; [|split; [done|]].
    + rewrite imap_cons. simpl.
      rewrite (getitem_nonneg _ _ x) by done. simpl.
      rewrite Hset. simpl.
      rewrite <- Hrun. f_equal. apply imap_ext. intros; simpl.
      do 2 f_equal. lia.
    + intros i j. rewrite Hcell2, Hcell1. simpl.
      destruct (decide (j = Z.to_nat (position - start_pos)
                        ∧ (S k ≤ i < S k + length entries)%nat))
        as [[-> ?]|Hlater].
      { rewrite !decide_True by lia.
        by replace (i - k)%nat with (S (i - S k)) by lia. }
      rewrite (decide_False (P := _ ∧ (S k ≤ i < _)%nat)) by done.
      destruct (decide (i = Z.to_nat (Z.of_nat (k + 0))
                        ∧ j = Z.to_nat (position - start_pos)))
        as [[-> ->]|Hnow].
      { rewrite !decide_True by lia.
        replace (Z.to_nat (Z.of_nat (k + 0)) - k)%nat with 0%nat by lia.
        simpl. unfold variant_llr. by rewrite Hx. }
      rewrite decide_False; [done|]. intros [-> ?].
      destruct (decide (i = k)); [apply Hnow|apply Hlater]; split; lia.
Qed.

Lemma score_variants_ok (heatmap : ndarray) (cols : nat) :
  shape heatmap 20 cols →
  0 ≤ position - start_pos < Z.of_nat cols →
  (∀ a, a ∈ amino_acids →
     0 ≤ convert_tokens_to_ids tokenizer a
         < Z.of_nat (length log_probabilities)) →
  ∃ heatmap',
    for_in (enumerate amino_acids)
      (score_variant tokenizer log_probabilities log_prob_wt
         start_pos position) heatmap = Ok heatmap'
    ∧ shape heatmap' 20 cols
    ∧ ∀ i j, cell heatmap' i j
             = if decide (j = Z.to_nat (position - start_pos) ∧ (i < 20)%nat)
               then a ← amino_acids !! i; variant_llr tokenizer log_probabilities log_prob_wt a
               else cell heatmap i j.
Proof.
  intros Hshape Hcol Hids.
  destruct (score_variants_from amino_acids 0 heatmap 20 cols)
    as (hm' & Hrun & Hshape' & Hcell); [done|simpl; lia|done|done|].
  exists hm'. split; [done|]. split; [done|].
  intros i j. rewrite Hcell. change (length amino_acids) with 20%nat.
  rewrite Nat.sub_0_r. repeat case_decide; (done || lia).
Qed.

End column.

(** ** What a run of the loop over positions amounts to *)

Section run.

Context `{!Imports}.
Variables (tokenizer : Tokenizer) (model : Model).

Lemma M_bind_run {A B} (m : M A) (f : A → M B) (s : State) :
  (m ≫= f) s = match m s with
               | (Ok a, s') => f a s'
               | (Raise e, s') => (Raise e, s')
               end.
Proof. done. Qed.

Lemma fresh_tensor (s : State) : tensors s !! fresh (dom (tensors s)) = None.
Proof. apply not_elem_of_dom, is_fresh. Qed.

Lemma score_position_run (r : nat) (ids : list Z) (start_pos position : Z)
    (heatmap : ndarray) (s : State) :
  tensors s !! r = Some ids →
  score_position tokenizer model r start_pos position heatmap s
  = let r' := fresh (dom (tensors s)) in
    match setitem ids position (mask_token_id tokenizer) with
    | Raise e =>
        (Raise e, {| tensors := <[r' := ids]> (tensors s); trace := trace s |})
    | Ok masked =>
        (score_masked tokenizer model
           ids masked start_pos position heatmap,
         {| tensors := <[r' := masked]> (tensors s);
            trace := trace s ++ [forward_pass masked] |})
    end.
Proof.
  intros Hr.
  assert (r ≠ fresh (dom (tensors s))) as Hne.
  { intros ->. rewrite fresh_tensor in Hr. done. }
  unfold score_position, tensor_clone, tensor_setitem, tensor_getitem,
    tensor_read, tensor_new, emit, lift, score_masked, mbind, M_bind.
  simpl. rewrite Hr. simpl. rewrite lookup_insert_eq.
  destruct (setitem ids position (mask_token_id tokenizer)) as [masked|e];
    [|done].
  simpl. rewrite insert_insert_eq, lookup_insert_eq. simpl.
  destruct (getitem (model masked) position) as [row|e]; [|done]. simpl.
  rewrite lookup_insert_ne, Hr by done. simpl.
  destruct (getitem ids position) as [wt|e]; [|done]. simpl.
  by destruct (getitem (torch_log <$> softmax row) wt) as [lwt|e].
Qed.

Lemma for_in_positions_run (r : nat) (ids : list Z) (start_pos : Z)
    (positions : list Z) :
  ∀ (heatmap : ndarray) (s : State),
  tensors s !! r = Some ids →
  ∃ s',
    for_in positions
      (score_position tokenizer model r start_pos) heatmap s
    = ((positions_outcome tokenizer model
          ids start_pos positions heatmap).1, s')
    ∧ trace s' = trace s ++ (positions_outcome tokenizer model
                               ids start_pos positions heatmap).2
    ∧ tensors s ⊆ tensors s'.
Proof.
  induction positions as [|p ps IH]; intros heatmap s Hr.
  - exists s. simpl. by rewrite app_nil_r.
  - pose proof (fresh_tensor s) as Hfresh.
    cbn [for_in positions_outcome]. unfold mbind at 1, M_bind at 1.
    rewrite (score_position_run r ids) by done. cbv zeta.
    destruct (setitem ids p (mask_token_id tokenizer)) as [masked|e].
    + destruct (score_masked _ _ ids masked start_pos p heatmap) as [hm'|e].
      * destruct (IH hm' {| tensors := <[fresh (dom (tensors s)) := masked]>
                                         (tensors s);
                            trace := trace s ++ [forward_pass masked] |})
          as (s' & Hrun & Htrace & Hsub).
        { simpl. rewrite lookup_insert_ne; [done|].
          intros <-. by rewrite Hfresh in Hr. }
        exists s'. rewrite Hrun.
        destruct (positions_outcome _ _ ids start_pos ps hm') as [res evs].
        simpl in *. split; [done|]. split.
        { by rewrite Htrace, <- app_assoc. }
        etrans; [|done]. by apply insert_subseteq.
      * eexists. simpl. split; [done|]. split; [done|].
        by apply insert_subseteq.
    + eexists. simpl. split; [done|]. rewrite app_nil_r. split; [done|].
      by apply insert_subseteq.
Qed.

End run.

(** ** The loop on positions that are in range *)

Section valid.

Context `{!Imports}.
Variables (tokenizer : Tokenizer) (model : Model).
Variable vocab_size : nat.

Hypothesis library_shapes : Shapes model vocab_size.
Hypothesis amino_acids_in_vocabulary : ∀ a, a ∈ amino_acids →
  0 ≤ convert_tokens_to_ids tokenizer a < Z.of_nat vocab_size.

Lemma score_masked_valid (ids : list Z) (start_pos p : Z) (cols : nat)
    (heatmap : ndarray) :
  scorable vocab_size ids start_pos cols p → shape heatmap 20 cols →
  ∃ heatmap',
    score_masked tokenizer model
      ids (masked_at tokenizer ids p) start_pos p heatmap = Ok heatmap'
    ∧ shape heatmap' 20 cols
    ∧ ∀ i j, cell heatmap' i j
             = if decide (j = Z.to_nat (p - start_pos) ∧ (i < 20)%nat)
               then a ← amino_acids !! i;
                    position_llr tokenizer model ids p a
               else cell heatmap i j.
Proof.
  intros (Hp & Hcol & wt & Hwt & Hwt_range) Hshape.
  destruct library_shapes as [Hrows Hcols Hsoftmax].
  pose proof (lookup_lt_Some _ _ _ Hwt) as Hlt.
  destruct (lookup_lt_is_Some_2 (model (masked_at tokenizer ids p)) (Z.to_nat p))
    as [row Hrow].
  { rewrite Hrows. unfold masked_at. by rewrite length_insert. }
  assert (length (torch_log <$> softmax row) = vocab_size) as Hlen.
  { rewrite length_fmap, Hsoftmax. eapply Hcols, list_elem_of_lookup_2, Hrow. }
  destruct (lookup_lt_is_Some_2 (torch_log <$> softmax row) (Z.to_nat wt))
    as [lwt Hlwt]; [rewrite Hlen; lia|].
  destruct (score_variants_ok tokenizer (torch_log <$> softmax row) lwt
              start_pos p heatmap cols) as (hm' & Hrun & Hshape' & Hcell);
    [done|done|by rewrite Hlen|].
  exists hm'. split; [|split; [done|]].
  - unfold score_masked.
    rewrite (getitem_nonneg _ _ row), bind_Ok by done.
    rewrite (getitem_nonneg _ _ wt), bind_Ok by done.
    rewrite (getitem_nonneg _ _ lwt); [exact Hrun|lia|exact Hlwt].
  - intros i j. rewrite Hcell. case_decide; [|done].
    destruct (amino_acids !! i) as [a|]; [|done]. simpl.
    unfold position_llr, log_softmax_at.
    rewrite (list_lookup_total_correct _ _ _ Hrow), Hwt. simpl.
    by rewrite Hlwt.
Qed.

Lemma setitem_mask (ids : list Z) (start_pos p : Z) (cols : nat) :
  scorable vocab_size ids start_pos cols p →
  setitem ids p (mask_token_id tokenizer) = Ok (masked_at tokenizer ids p).
Proof.
  intros (Hp & _ & wt & Hwt & _). apply setitem_nonneg.
  apply lookup_lt_Some in Hwt. lia.
Qed.

Lemma positions_outcome_valid (ids : list Z) (start_pos : Z) (cols : nat)
    (positions : list Z) :
  ∀ heatmap : ndarray,
  Forall (scorable vocab_size ids start_pos cols) positions → NoDup positions →
  shape heatmap 20 cols →
  ∃ heatmap',
    positions_outcome tokenizer model
      ids start_pos positions heatmap
    = (Ok heatmap', forward_pass ∘ masked_at tokenizer ids <$> positions)
    ∧ shape heatmap' 20 cols
    ∧ (∀ p i, p ∈ positions → (i < 20)%nat →
         cell heatmap' i (Z.to_nat (p - start_pos))
         = a ← amino_acids !! i;
           position_llr tokenizer model ids p a)
    ∧ (∀ i j, (∀ p, p ∈ positions → j ≠ Z.to_nat (p - start_pos)) →
         cell heatmap' i j = cell heatmap i j).
Proof.
  induction positions as [|p ps IH]; intros heatmap Hall Hnodup Hshape.
  - exists heatmap. split; [done|]. split; [done|]. split; [|done].
    intros p i Hin. by apply elem_of_nil in Hin.
  - apply Forall_cons in Hall as [Hp Hall].
    apply NoDup_cons in Hnodup as [Hnotin Hnodup].
    destruct (score_masked_valid ids start_pos p cols heatmap)
      as (hm1 & Hrun1 & Hshape1 & Hcell1); [done|done|].
    destruct (IH hm1) as (hm2 & Hrun2 & Hshape2 & Hcol2 & Hframe2);
      [done|done|done|].
    exists hm2. split; [|split; [done|split]].
    + simpl. rewrite (setitem_mask _ _ _ _ Hp), Hrun1, Hrun2. done.
    + intros q i Hq Hi. apply elem_of_cons in Hq as [->|Hq]; [|by apply Hcol2].
      rewrite Hframe2, Hcell1; [by rewrite decide_True|].
      intros q Hq Heq. rewrite Forall_forall in Hall.
      destruct (Hall q Hq) as (_ & ? & _). destruct Hp as (_ & ? & _).
      apply Hnotin. by replace p with q by lia.
    + intros i j Hj. rewrite Hframe2, Hcell1.
      * rewrite decide_False; [done|]. intros [-> _]. by apply (Hj p); [left|].
      * intros q Hq. apply Hj. by right.
Qed.

End valid.

(** ** What a call of [generate_heatmap] amounts to *)

Section outcome.

Context `{!Imports}.

#[local] Abbreviation tokenizer := (AutoTokenizer_from_pretrained model_name).
#[local] Abbreviation model := (EsmForMaskedLM_from_pretrained model_name).

Lemma generate_heatmap_llr_run (protein_sequence : string) (start_pos : Z)
    (end_pos : option Z) (s : State) :
  ∃ s',
    generate_heatmap_llr protein_sequence start_pos end_pos s
    = ((llr_outcome protein_sequence start_pos end_pos).1, s')
    ∧ trace s' = trace s ++ (llr_outcome protein_sequence start_pos end_pos).2
    ∧ tensors s ⊆ tensors s'
    ∧ tensors s' !! fresh (dom (tensors s))
      = Some (encode tokenizer protein_sequence).
Proof.
  pose proof (fresh_tensor s) as Hfresh.
  unfold generate_heatmap_llr, llr_outcome.
  do 2 (rewrite M_bind_run; unfold emit at 1; cbv beta iota).
  rewrite M_bind_run. unfold tensor_new at 1. cbv beta iota zeta.
  rewrite M_bind_run. unfold tensor_read at 1.
  cbn [tensors trace]. rewrite lookup_insert_eq. cbv beta iota.
  rewrite M_bind_run. unfold lift at 1.
  set (ids := encode tokenizer protein_sequence).
  set (end_pos' := default (Z.of_nat (length ids) - 2) end_pos).
  set (r := fresh (dom (tensors s))) in *.
  destruct (np_zeros 20 (end_pos' - start_pos + 1)) as [heatmap|e].
  - destruct (for_in_positions_run tokenizer model r ids
                start_pos (py_range start_pos (end_pos' + 1)) heatmap
                {| tensors := <[r := ids]> (tensors s);
                   trace := (trace s ++ [AutoTokenizer_loaded model_name])
                            ++ [EsmForMaskedLM_loaded model_name] |})
      as (s' & Hrun & Htrace & Hsub); [apply lookup_insert_eq|].
    rewrite M_bind_run, Hrun.
    destruct (positions_outcome tokenizer model ids start_pos
                (py_range start_pos (end_pos' + 1)) heatmap) as [res events].
    cbn [fst snd tensors trace] in *.
    exists s'. split; [by destruct res|]. split.
    { rewrite Htrace. unfold loads. by rewrite <- !app_assoc. }
    split.
    + etrans; [|done]. by apply insert_subseteq.
    + eapply lookup_weaken; [|done]. apply lookup_insert_eq.
  - eexists. split; [done|]. cbn [fst snd tensors trace]. split.
    { unfold loads. by rewrite <- !app_assoc. }
    split; [by apply insert_subseteq|apply lookup_insert_eq].
Qed.

Lemma generate_heatmap_run (protein_sequence : string) (start_pos : Z)
    (end_pos : option Z) (s : State) :
  ∃ s',
    generate_heatmap protein_sequence start_pos end_pos s
    = ((heatmap_outcome protein_sequence start_pos end_pos).1, s')
    ∧ trace s' = trace s ++ (heatmap_outcome protein_sequence start_pos end_pos).2
    ∧ tensors s ⊆ tensors s'.
Proof.
  destruct (generate_heatmap_llr_run protein_sequence start_pos end_pos s)
    as (s1 & Hrun & Htrace & Hsub & _).
  unfold generate_heatmap, heatmap_outcome. rewrite M_bind_run, Hrun.
  destruct (llr_outcome protein_sequence start_pos end_pos) as [[[hm e]|err] events].
  - cbn [fst snd] in *. cbv zeta. rewrite M_bind_run. unfold lift at 1.
    destruct (plt_xticks _ _) as [[]|err].
    + eexists. unfold emit. cbn [fst snd tensors trace] in *.
      split; [done|]. by rewrite Htrace, <- app_assoc.
    + by exists s1.
  - by exists s1.
Qed.

(** The table that [generate_heatmap] has built when its loops end is the
    one it plots. *)
Lemma generate_heatmap_shows (protein_sequence : string) (start_pos : Z)
    (end_pos : option Z) (s s' : State) (heatmap : ndarray) (end_pos' : Z) :
  generate_heatmap_llr protein_sequence start_pos end_pos s
  = (Ok (heatmap, end_pos'), s') →
  plt_xticks (py_range 0 (end_pos' - start_pos + 1))
    (py_slice (list_str protein_sequence) (start_pos - 1) end_pos')
  = Ok () →
  generate_heatmap protein_sequence start_pos end_pos s
  = (Ok (),
     {| tensors := tensors s';
        trace := trace s'
                 ++ [plt_show heatmap (py_range 0 (end_pos' - start_pos + 1))
                       (py_slice (list_str protein_sequence)
                          (start_pos - 1) end_pos')] |}).
Proof.
  intros Hrun Hticks. unfold generate_heatmap.
  rewrite M_bind_run, Hrun. cbv zeta. rewrite M_bind_run. unfold lift at 1.
  by rewrite Hticks.
Qed.

(** And when [plt.xticks] refuses the labels, the call ends there. *)
Lemma generate_heatmap_xticks_raises (protein_sequence : string)
    (start_pos : Z) (end_pos : option Z) (s s' : State) (heatmap : ndarray)
    (end_pos' : Z) (e : PyError) :
  generate_heatmap_llr protein_sequence start_pos end_pos s
  = (Ok (heatmap, end_pos'), s') →
  plt_xticks (py_range 0 (end_pos' - start_pos + 1))
    (py_slice (list_str protein_sequence) (start_pos - 1) end_pos')
  = Raise e →
  generate_heatmap protein_sequence start_pos end_pos s = (Raise e, s').
Proof.
  intros Hrun Hticks. unfold generate_heatmap.
  rewrite M_bind_run, Hrun. cbv zeta. rewrite M_bind_run. unfold lift at 1.
  by rewrite Hticks.
Qed.

End outcome.

(** ** Calls on a range of the sequence *)

Section calls.

Context `{!Imports}.
Variable vocab_size : nat.

#[local] Abbreviation tokenizer := (AutoTokenizer_from_pretrained model_name).
#[local] Abbreviation model := (EsmForMaskedLM_from_pretrained model_name).

Lemma NoDup_py_range (a b : Z) : NoDup (py_range a b).
Proof. apply NoDup_seqZ. Qed.

Lemma elem_of_py_range (a b p : Z) : p ∈ py_range a b ↔ a ≤ p < b.
Proof. unfold py_range. rewrite elem_of_seqZ. lia. Qed.

Lemma llr_outcome_valid (protein_sequence : string) (start_pos end_pos : Z) :
  let ids := encode tokenizer protein_sequence in
  Shapes model vocab_size →
  (∀ a, a ∈ amino_acids →
     0 ≤ convert_tokens_to_ids tokenizer a < Z.of_nat vocab_size) →
  start_pos ≤ end_pos + 1 →
  (∀ p, start_pos ≤ p ≤ end_pos →
     0 ≤ p ∧ ∃ wt, ids !! Z.to_nat p = Some wt ∧ 0 ≤ wt < Z.of_nat vocab_size) →
  ∃ heatmap,
    llr_outcome protein_sequence start_pos (Some end_pos)
    = (Ok (heatmap, end_pos),
       loads ++ (forward_pass ∘ masked_at tokenizer ids
                   <$> py_range start_pos (end_pos + 1)))
    ∧ shape heatmap 20 (Z.to_nat (end_pos - start_pos + 1))
    ∧ ∀ p i, start_pos ≤ p ≤ end_pos → (i < 20)%nat →
        cell heatmap i (Z.to_nat (p - start_pos))
        = a ← amino_acids !! i;
          position_llr tokenizer model ids p a.
Proof.
  intros ids Hshapes Haa Hrange Hids. unfold llr_outcome. cbv zeta.
  fold ids. change (default _ (Some end_pos)) with end_pos.
  destruct (np_zeros_shape 20 (end_pos - start_pos + 1))
    as (hm0 & -> & Hshape0); [lia|lia|].
  destruct (positions_outcome_valid tokenizer model
              vocab_size Hshapes Haa ids start_pos
              (Z.to_nat (end_pos - start_pos + 1))
              (py_range start_pos (end_pos + 1)) hm0)
    as (hm & -> & Hshape & Hcol & _).
  - apply Forall_forall. intros p Hp%elem_of_py_range.
    destruct (Hids p) as [? ?]; [lia|]. unfold scorable. split; [done|].
    split; [lia|done].
  - apply NoDup_py_range.
  - done.
  - exists hm. split; [done|]. split; [done|].
    intros p i Hp Hi. apply Hcol; [|done]. apply elem_of_py_range. lia.
Qed.

(** In a sequence over the alphabet, framed by the two sentinels, index
    [p] of the tokenized sequence holds the id of residue [p]. *)
Lemma framed_lookup (protein_sequence : string) (p : Z) :
  Frames tokenizer vocab_size → over_alphabet protein_sequence →
  1 ≤ p ≤ Z.of_nat (String.length protein_sequence) →
  ∃ c, list_str protein_sequence !! Z.to_nat (p - 1) = Some c
       ∧ c ∈ amino_acids
       ∧ encode tokenizer protein_sequence !! Z.to_nat p
         = Some (convert_tokens_to_ids tokenizer c)
       ∧ 0 ≤ convert_tokens_to_ids tokenizer c < Z.of_nat vocab_size.
Proof.
  intros [Hids Henc] Hseq Hp.
  destruct (Henc _ Hseq) as (cls & eos & ->).
  destruct (lookup_lt_is_Some_2 (list_str protein_sequence) (Z.to_nat (p - 1)))
    as [c Hc]; [rewrite length_list_str; lia|].
  assert (c ∈ amino_acids) as Hin.
  { unfold over_alphabet in Hseq. rewrite Forall_lookup in Hseq. by eapply Hseq. }
  exists c. split; [done|]. split; [done|]. split; [|by apply Hids].
  replace (Z.to_nat p) with (S (Z.to_nat (p - 1))) by lia. simpl.
  rewrite lookup_app_l by (rewrite length_fmap; by eapply lookup_lt_Some).
  by rewrite list_lookup_fmap, Hc.
Qed.

Lemma encodable_lookup (protein_sequence : string) (p : Z) :
  encodable tokenizer vocab_size protein_sequence →
  1 ≤ p ≤ Z.of_nat (String.length protein_sequence) →
  ∃ wt, encode tokenizer protein_sequence !! Z.to_nat p = Some wt
        ∧ 0 ≤ wt < Z.of_nat vocab_size.
Proof.
  intros (Hlen & Hids & _) Hp.
  destruct (lookup_lt_is_Some_2 (encode tokenizer protein_sequence) (Z.to_nat p))
    as [wt Hwt]; [lia|].
  exists wt. split; [done|]. rewrite Forall_lookup in Hids. by eapply Hids.
Qed.

End calls.

(** ** The instance satisfies what the scorer relies on *)

Lemma Esm2_shapes : Shapes Esm2.model Esm2.vocab_size.
Proof.
  split.
  - intros ids. unfold Esm2.model. by rewrite length_imap.
  - intros ids row Hrow. unfold Esm2.model in Hrow.
    apply list_elem_of_lookup in Hrow as [j Hj].
    rewrite list_lookup_imap in Hj.
    destruct (ids !! j); [|done]. by injection Hj as <-.
  - intros row. change (softmax row) with (Esm2.softmax row).
    unfold Esm2.softmax. by rewrite !length_fmap.
Qed.

Lemma Underflow_shapes :
  @Shapes Underflow.imports Underflow.model Esm2.vocab_size.
Proof.
  split.
  - intros ids. unfold Underflow.model. by rewrite length_fmap.
  - intros ids row Hrow. unfold Underflow.model in Hrow.
    apply list_elem_of_fmap in Hrow as (id & -> & _).
    by rewrite length_fmap, length_seqZ, Nat2Z.id.
  - intros row. change (@softmax Underflow.imports row) with (Esm2.softmax row).
    unfold Esm2.softmax. by rewrite !length_fmap.
Qed.

Lemma Esm2_amino_acids :
  Forall (λ a, 0 ≤ Esm2.token_id a < Z.of_nat Esm2.vocab_size) amino_acids.
Proof. repeat constructor; by vm_compute. Qed.

Lemma Esm2_frames : Frames Esm2.tokenizer Esm2.vocab_size.
Proof.
  split.
  - intros a Ha. pose proof Esm2_amino_acids as Hall.
    rewrite Forall_forall in Hall. by apply Hall.
  - intros s _. by exists 0, 2.
Qed.

(** ** Traces *)

Lemma forward_passes_app (t1 t2 : list Event) :
  forward_passes (t1 ++ t2) = forward_passes t1 ++ forward_passes t2.
Proof. apply omap_app. Qed.

Lemma forward_passes_fmap {A} (f : A → list Z) (l : list A) :
  forward_passes (forward_pass ∘ f <$> l) = f <$> l.
Proof. induction l as [|x l IH]; [done|]. simpl. f_equal. exact IH. Qed.

Lemma cell_is_Some (a : ndarray) (rows cols i j : nat) :
  shape a rows cols → (i < rows)%nat → (j < cols)%nat → is_Some (cell a i j).
Proof.
  intros Hshape Hi Hj. unfold cell.
  destruct (lookup_lt_is_Some_2 a i) as [row Hrow]; [destruct Hshape; lia|].
  rewrite Hrow. simpl. apply lookup_lt_is_Some_2.
  by rewrite (shape_lookup _ _ _ _ _ Hshape Hrow).
Qed.

Lemma position_llr_Some `{!Imports} (tokenizer : Tokenizer) (model : Model)
    (ids : list Z) (p : Z) (a : string) (v : float) :
  position_llr tokenizer model ids p a = Some v →
  let log_probabilities :=
    log_softmax_at model (masked_at tokenizer ids p) p in
  ∃ wt_residue log_prob_mt log_prob_wt,
    ids !! Z.to_nat p = Some wt_residue
    ∧ log_probabilities !! Z.to_nat (convert_tokens_to_ids tokenizer a)
      = Some log_prob_mt
    ∧ log_probabilities !! Z.to_nat wt_residue = Some log_prob_wt
    ∧ v = (log_prob_mt - log_prob_wt)%float.
Proof.
  unfold position_llr, variant_llr. cbv zeta. intros Hv.
  destruct (ids !! Z.to_nat p) as [wt|]; [|done]. simpl in Hv.
  destruct (log_softmax_at _ _ _ !! Z.to_nat wt) as [lwt|] eqn:Hlwt;
    [|done].
  simpl in Hv.
  destruct (log_softmax_at _ _ _ !! Z.to_nat (convert_tokens_to_ids _ a))
    as [lmt|] eqn:Hlmt; [|done].
  simpl in Hv. exists wt, lmt, lwt. by simplify_eq.
Qed.

(** ** Slices and labels *)

Lemma py_slice_inside {A} (l : list A) (a b : Z) :
  0 ≤ a ≤ b → b ≤ Z.of_nat (length l) →
  py_slice l a b = take (Z.to_nat (b - a)) (drop (Z.to_nat a) l).
Proof.
  intros Ha Hb. unfold py_slice, py_slice_bound.
  rewrite !decide_False by lia. do 2 f_equal; lia.
Qed.

Lemma py_slice_lookup {A} (l : list A) (a b : Z) (k : nat) :
  0 ≤ a ≤ b → b ≤ Z.of_nat (length l) → (k < Z.to_nat (b - a))%nat →
  py_slice l a b !! k = l !! (Z.to_nat a + k)%nat.
Proof.
  intros Ha Hb Hk. rewrite py_slice_inside by done.
  rewrite lookup_take_lt by done. apply lookup_drop.
Qed.

Lemma py_slice_length {A} (l : list A) (a b : Z) :
  0 ≤ a ≤ b → b ≤ Z.of_nat (length l) →
  length (py_slice l a b) = Z.to_nat (b - a).
Proof.
  intros Ha Hb. rewrite py_slice_inside by done.
  rewrite length_take, length_drop. lia.
Qed.

Lemma length_py_range (a b : Z) : length (py_range a b) = Z.to_nat (b - a).
Proof. unfold py_range. apply length_seqZ. Qed.

(** ** [plt.xticks] accepts as many labels as ticks, or none *)

Lemma plt_xticks_same_length (ticks : list Z) (labels : list string) :
  length labels = length ticks → plt_xticks ticks labels = Ok ().
Proof. intros Hlen. unfold plt_xticks. by rewrite decide_False by tauto. Qed.

Lemma plt_xticks_no_label (ticks : list Z) : plt_xticks ticks [] = Ok ().
Proof. unfold plt_xticks. by rewrite decide_False by tauto. Qed.

Lemma plt_xticks_Raise (ticks : list Z) (labels : list string) :
  labels ≠ [] → length labels ≠ length ticks →
  plt_xticks ticks labels = Raise ValueError.
Proof. intros. unfold plt_xticks. by rewrite decide_True. Qed.

(** On a range of the sequence the labels are as many as the ticks. *)
Lemma plt_xticks_inside (protein_sequence : string) (start_pos end_pos : Z) :
  1 ≤ start_pos ≤ end_pos →
  end_pos ≤ Z.of_nat (String.length protein_sequence) →
  plt_xticks (py_range 0 (end_pos - start_pos + 1))
    (py_slice (list_str protein_sequence) (start_pos - 1) end_pos)
  = Ok ().
Proof.
  intros Hstart Hend. apply plt_xticks_same_length.
  rewrite py_slice_length by (rewrite ?length_list_str; lia).
  rewrite length_py_range. lia.
Qed.

(** * The claims *)

Section claims.

Context `{!Imports}.
Variable vocab_size : nat.

#[local] Abbreviation tokenizer := (AutoTokenizer_from_pretrained model_name).
#[local] Abbreviation model := (EsmForMaskedLM_from_pretrained model_name).

(** A call on a valid range of a sequence over the alphabet: it returns,
    its forward passes are one per position, on the copy masked there, and
    every cell is the LLR of its amino acid at its position. *)
Lemma llr_valid (protein_sequence : string) (start_pos end_pos : Z) (s : State) :
  let ids := encode tokenizer protein_sequence in
  Shapes model vocab_size →
  (∀ a, a ∈ amino_acids →
     0 ≤ convert_tokens_to_ids tokenizer a < Z.of_nat vocab_size) →
  (∀ p, start_pos ≤ p ≤ end_pos →
     0 ≤ p ∧ ∃ wt, ids !! Z.to_nat p = Some wt ∧ 0 ≤ wt < Z.of_nat vocab_size) →
  start_pos ≤ end_pos →
  ∃ heatmap s',
    generate_heatmap_llr protein_sequence start_pos (Some end_pos) s
    = (Ok (heatmap, end_pos), s')
    ∧ shape heatmap 20 (Z.to_nat (end_pos - start_pos + 1))
    ∧ trace s' = trace s ++ loads
                 ++ (forward_pass ∘ masked_at tokenizer ids
                       <$> py_range start_pos (end_pos + 1))
    ∧ tensors s ⊆ tensors s'
    ∧ tensors s' !! fresh (dom (tensors s)) = Some ids
    ∧ ∀ p i, start_pos ≤ p ≤ end_pos → (i < 20)%nat →
        is_Some (cell heatmap i (Z.to_nat (p - start_pos)))
        ∧ cell heatmap i (Z.to_nat (p - start_pos))
          = a ← amino_acids !! i;
            position_llr tokenizer model ids p a.
Proof.
  intros ids Hshapes Haa Hids Hrange.
  destruct (generate_heatmap_llr_run protein_sequence start_pos (Some end_pos) s)
    as (s' & Hrun & Htrace & Hsub & Hinput).
  destruct (llr_outcome_valid vocab_size
              protein_sequence start_pos end_pos)
    as (hm & Hout & Hshape & Hcell); [done|done|lia|done|].
  rewrite Hout in Hrun, Htrace. cbn [fst snd] in *.
  exists hm, s'. do 5 (split; [done|]).
  intros p i Hp Hi. split; [|by apply Hcell].
  eapply cell_is_Some; [done|done|lia].
Qed.

(** The same for a sequence over the alphabet and [1 <= start <= end <= L]. *)
Lemma llr_valid_framed (protein_sequence : string) (start_pos end_pos : Z)
    (s : State) :
  let ids := encode tokenizer protein_sequence in
  Shapes model vocab_size → Frames tokenizer vocab_size →
  over_alphabet protein_sequence →
  1 ≤ start_pos ≤ end_pos ∧ end_pos ≤ Z.of_nat (String.length protein_sequence) →
  ∃ heatmap s',
    generate_heatmap_llr protein_sequence start_pos (Some end_pos) s
    = (Ok (heatmap, end_pos), s')
    ∧ shape heatmap 20 (Z.to_nat (end_pos - start_pos + 1))
    ∧ trace s' = trace s ++ loads
                 ++ (forward_pass ∘ masked_at tokenizer ids
                       <$> py_range start_pos (end_pos + 1))
    ∧ tensors s ⊆ tensors s'
    ∧ tensors s' !! fresh (dom (tensors s)) = Some ids
    ∧ ∀ p i, start_pos ≤ p ≤ end_pos → (i < 20)%nat →
        is_Some (cell heatmap i (Z.to_nat (p - start_pos)))
        ∧ cell heatmap i (Z.to_nat (p - start_pos))
          = a ← amino_acids !! i;
            position_llr tokenizer model ids p a.
Proof.
  intros ids Hshapes Hframes Hseq [Hstart Hend].
  apply llr_valid; [done|apply Hframes| |lia].
  intros p Hp.
  destruct (framed_lookup vocab_size
              protein_sequence p) as (c & _ & _ & Hc & Hc_range);
    [done|done|lia|]. split; [lia|]. eauto.
Qed.

(** The two log-probabilities of a cell of a valid call. *)
Lemma llr_cell_framed (protein_sequence : string) (p : Z) (a : string)
    (v : float) :
  let ids := encode tokenizer protein_sequence in
  let log_probabilities :=
    log_softmax_at model (masked_at tokenizer ids p) p in
  Frames tokenizer vocab_size → over_alphabet protein_sequence →
  1 ≤ p ≤ Z.of_nat (String.length protein_sequence) →
  position_llr tokenizer model ids p a = Some v →
  ∃ residue log_prob_mt log_prob_wt,
    list_str protein_sequence !! Z.to_nat (p - 1) = Some residue
    ∧ ids !! Z.to_nat p = Some (convert_tokens_to_ids tokenizer residue)
    ∧ log_probabilities !! Z.to_nat (convert_tokens_to_ids tokenizer a)
      = Some log_prob_mt
    ∧ log_probabilities !! Z.to_nat (convert_tokens_to_ids tokenizer residue)
      = Some log_prob_wt
    ∧ v = (log_prob_mt - log_prob_wt)%float.
Proof.
  intros ids logp Hframes Hseq Hp Hv.
  destruct (framed_lookup vocab_size
              protein_sequence p) as (c & Hc & _ & Hwt & _); [done..|].
  apply position_llr_Some in Hv as (wt & lmt & lwt & Hwt' & Hlmt & Hlwt & ->).
  subst ids. rewrite Hwt in Hwt'. injection Hwt' as <-.
  by exists c, lmt, lwt.
Qed.

(** C4. For every valid range, [1 <= start <= end <= L], the table built
    has exactly 20 rows and exactly [end - start + 1] columns: a single
    column when [start = end], and [L] columns when [start = 1] and
    [end = L]. *)
Theorem table_dimensions (protein_sequence : string) (start_pos end_pos : Z)
    (s : State) :
  Shapes model vocab_size → Frames tokenizer vocab_size →
  over_alphabet protein_sequence →
  1 ≤ start_pos ≤ end_pos ∧ end_pos ≤ Z.of_nat (String.length protein_sequence) →
  ∃ heatmap s',
    generate_heatmap_llr protein_sequence start_pos (Some end_pos) s
    = (Ok (heatmap, end_pos), s')
    ∧ length heatmap = 20%nat
    ∧ Forall (λ row, Z.of_nat (length row) = end_pos - start_pos + 1) heatmap
    ∧ (start_pos = end_pos → Forall (λ row, length row = 1%nat) heatmap)
    ∧ (start_pos = 1 → end_pos = Z.of_nat (String.length protein_sequence) →
       Forall (λ row, length row = String.length protein_sequence) heatmap).
Proof.
  intros Hshapes Hframes Hseq Hrange.
  destruct (llr_valid_framed protein_sequence start_pos end_pos s)
    as (hm & s' & Hrun & [Hrows Hcols] & _); [done..|].
  exists hm, s'. split; [done|]. split; [done|].
  repeat split; [|intros ->|intros -> ->];
    (eapply Forall_impl; [exact Hcols|]); intros row Hrow; simpl in Hrow; lia.
Qed.

(** C1. For every sequence over the 20-letter alphabet and every valid
    range, the cell of amino acid [a] in column [p - start] is
    [log(softmax(logits[p]))] at the token id of [a] minus the same
    distribution at the token id of the original, unmasked residue at [p],
    the logits being those of the one forward pass on the copy of the
    tokenized sequence that is masked at [p]. *)
Theorem cell_is_log_likelihood_ratio (protein_sequence : string)
    (start_pos end_pos : Z) (s : State) :
  let ids := encode tokenizer protein_sequence in
  Shapes model vocab_size → Frames tokenizer vocab_size →
  over_alphabet protein_sequence →
  1 ≤ start_pos ≤ end_pos ∧ end_pos ≤ Z.of_nat (String.length protein_sequence) →
  ∃ heatmap s',
    generate_heatmap_llr protein_sequence start_pos (Some end_pos) s
    = (Ok (heatmap, end_pos), s')
    ∧ forward_passes (trace s')
      = forward_passes (trace s)
        ++ (masked_at tokenizer ids <$> py_range start_pos (end_pos + 1))
    ∧ ∀ p i a, start_pos ≤ p ≤ end_pos → amino_acids !! i = Some a →
        let log_probabilities :=
          log_softmax_at model (masked_at tokenizer ids p) p in
        ∃ residue log_prob_mt log_prob_wt,
          list_str protein_sequence !! Z.to_nat (p - 1) = Some residue
          ∧ log_probabilities !! Z.to_nat (convert_tokens_to_ids tokenizer a)
            = Some log_prob_mt
          ∧ log_probabilities !! Z.to_nat (convert_tokens_to_ids tokenizer residue)
            = Some log_prob_wt
          ∧ cell heatmap i (Z.to_nat (p - start_pos))
            = Some (log_prob_mt - log_prob_wt)%float.
Proof.
  intros ids Hshapes Hframes Hseq Hrange.
  destruct (llr_valid_framed protein_sequence start_pos end_pos s)
    as (hm & s' & Hrun & _ & Htrace & _ & _ & Hcell); [done..|].
  exists hm, s'. split; [done|]. split.
  { rewrite Htrace, !forward_passes_app, forward_passes_fmap. done. }
  intros p i a Hp Ha logp.
  destruct (Hcell p i) as [[v Hv] Heq];
    [done|by apply lookup_lt_Some in Ha|].
  rewrite Hv, Ha in Heq. simpl in Heq. symmetry in Heq.
  apply llr_cell_framed in Heq as (c & lmt & lwt & Hc & _ & Hlmt & Hlwt & ->);
    [|done|done|lia].
  exists c, lmt, lwt. by rewrite Hv.
Qed.

(** C3, as the code has it. For every valid position [p] of a valid
    range, the cell in the row of the wild-type residue (the residue of the
    input sequence at [p]) and in column [p - start] holds the
    log-probability of the wild type subtracted from itself: that is
    exactly 0 when the log-probability is a finite number, and it is not a
    number when the log-probability is not finite, as it is when the
    probability of the wild type has underflowed to 0 and its logarithm is
    minus infinity. *)
Theorem wild_type_row_is_zero (protein_sequence : string)
    (start_pos end_pos : Z) (s : State) (p : Z) (i : nat) (residue : string) :
  let ids := encode tokenizer protein_sequence in
  Shapes model vocab_size → Frames tokenizer vocab_size →
  over_alphabet protein_sequence →
  1 ≤ start_pos ≤ end_pos ∧ end_pos ≤ Z.of_nat (String.length protein_sequence) →
  start_pos ≤ p ≤ end_pos →
  list_str protein_sequence !! Z.to_nat (p - 1) = Some residue →
  amino_acids !! i = Some residue →
  ∃ heatmap s' log_prob_wt,
    generate_heatmap_llr protein_sequence start_pos (Some end_pos) s
    = (Ok (heatmap, end_pos), s')
    ∧ log_prob_wt_at tokenizer model ids p = Some log_prob_wt
    ∧ cell heatmap i (Z.to_nat (p - start_pos))
      = Some (log_prob_wt - log_prob_wt)%float
    ∧ (PrimFloat.is_finite log_prob_wt = true →
       cell heatmap i (Z.to_nat (p - start_pos)) = Some 0%float)
    ∧ (PrimFloat.is_finite log_prob_wt = false →
       cell heatmap i (Z.to_nat (p - start_pos)) = Some nan).
Proof.
  intros ids Hshapes Hframes Hseq Hrange Hp Hresidue Hrow.
  destruct (llr_valid_framed protein_sequence start_pos end_pos s)
    as (hm & s' & Hrun & _ & _ & _ & _ & Hcell); [done..|].
  destruct (Hcell p i) as [[v Hv] Heq];
    [done|by apply lookup_lt_Some in Hrow|].
  rewrite Hv, Hrow in Heq. simpl in Heq. symmetry in Heq.
  apply llr_cell_framed in Heq as (c & mt & wt & Hc & Hid & Hmt & Hwt & ->);
    [|done|done|lia].
  rewrite Hresidue in Hc. injection Hc as <-.
  rewrite Hmt in Hwt. injection Hwt as <-.
  exists hm, s', mt. split; [done|]. split; [|split; [done|split] ].
  - unfold log_prob_wt_at. subst ids. rewrite Hid. simpl. exact Hmt.
  - intros Hfinite. rewrite Hv. f_equal. by apply float_sub_diag.
  - intros Hfinite. rewrite Hv. f_equal. by apply float_sub_diag_not_finite.
Qed.

(** C2, as the code has it. For every 1-indexed position [p] of a valid
    range, the index of the tokenized sequence that is masked, and at which
    the logits and the wild-type residue are read, is [p] itself: the start
    sentinel is at index 0, so that index [p] holds residue [p]. *)
Theorem masked_index_is_position (protein_sequence : string)
    (start_pos end_pos : Z) (s : State) :
  let ids := encode tokenizer protein_sequence in
  Shapes model vocab_size → Frames tokenizer vocab_size →
  over_alphabet protein_sequence →
  1 ≤ start_pos ≤ end_pos ∧ end_pos ≤ Z.of_nat (String.length protein_sequence) →
  ∃ heatmap s' passes,
    generate_heatmap_llr protein_sequence start_pos (Some end_pos) s
    = (Ok (heatmap, end_pos), s')
    ∧ forward_passes (trace s') = forward_passes (trace s) ++ passes
    ∧ ∀ p, start_pos ≤ p ≤ end_pos →
        passes !! Z.to_nat (p - start_pos)
        = Some (<[Z.to_nat p := mask_token_id tokenizer]> ids)
        ∧ (∃ residue,
             list_str protein_sequence !! Z.to_nat (p - 1) = Some residue
             ∧ ids !! Z.to_nat p
               = Some (convert_tokens_to_ids tokenizer residue))
        ∧ ∀ i a, amino_acids !! i = Some a →
            cell heatmap i (Z.to_nat (p - start_pos))
            = (wt_residue ← ids !! Z.to_nat p;
               let log_probabilities :=
                 torch_log <$> softmax
                   (model (<[Z.to_nat p := mask_token_id tokenizer]> ids)
                      !!! Z.to_nat p) in
               log_prob_wt ← log_probabilities !! Z.to_nat wt_residue;
               log_prob_mt ← log_probabilities
                               !! Z.to_nat (convert_tokens_to_ids tokenizer a);
               Some (log_prob_mt - log_prob_wt)%float).
Proof.
  intros ids Hshapes Hframes Hseq Hrange.
  destruct (llr_valid_framed protein_sequence start_pos end_pos s)
    as (hm & s' & Hrun & _ & Htrace & _ & _ & Hcell); [done..|].
  exists hm, s', (masked_at tokenizer ids <$> py_range start_pos (end_pos + 1)).
  split; [done|]. split.
  { rewrite Htrace, !forward_passes_app, forward_passes_fmap. done. }
  intros p Hp. split; [|split].
  - rewrite list_lookup_fmap. unfold py_range.
    rewrite lookup_seqZ_lt by lia. simpl. unfold masked_at.
    do 3 f_equal. lia.
  - destruct (framed_lookup vocab_size
                protein_sequence p) as (c & Hc & _ & Hwt & _);
      [done|done|lia|]. eauto.
  - intros i a Ha.
    destruct (Hcell p i) as [_ ->]; [done|by apply lookup_lt_Some in Ha|].
    rewrite Ha. simpl.
    unfold position_llr, variant_llr, log_softmax_at, masked_at. subst ids.
    destruct (encode _ _ !! Z.to_nat p) as [wt|]; [|done]. simpl.
    destruct (_ !! Z.to_nat (convert_tokens_to_ids _ a));
      by destruct (_ !! Z.to_nat wt).
Qed.

(** C5. For every position [p] of a valid range, the input of the forward
    pass that scores [p] is the tokenized sequence with index [p] masked
    and every other index as it was; the tokenized sequence is a tensor of
    its own, which still holds the unmasked ids when the call ends, and no
    tensor that existed before the call has changed. *)
Theorem masking_does_not_leak (protein_sequence : string)
    (start_pos end_pos : Z) (s : State) :
  let ids := encode tokenizer protein_sequence in
  Shapes model vocab_size → Frames tokenizer vocab_size →
  over_alphabet protein_sequence →
  1 ≤ start_pos ≤ end_pos ∧ end_pos ≤ Z.of_nat (String.length protein_sequence) →
  ∃ heatmap s' input_ids passes,
    generate_heatmap_llr protein_sequence start_pos (Some end_pos) s
    = (Ok (heatmap, end_pos), s')
    ∧ tensors s !! input_ids = None
    ∧ tensors s' !! input_ids = Some ids
    ∧ tensors s ⊆ tensors s'
    ∧ forward_passes (trace s') = forward_passes (trace s) ++ passes
    ∧ length passes = Z.to_nat (end_pos - start_pos + 1)
    ∧ ∀ p, start_pos ≤ p ≤ end_pos →
        ∃ masked, passes !! Z.to_nat (p - start_pos) = Some masked
          ∧ length masked = length ids
          ∧ masked !! Z.to_nat p = Some (mask_token_id tokenizer)
          ∧ ∀ j, j ≠ Z.to_nat p → masked !! j = ids !! j.
Proof.
  intros ids Hshapes Hframes Hseq Hrange.
  destruct (llr_valid_framed protein_sequence start_pos end_pos s)
    as (hm & s' & Hrun & _ & Htrace & Hsub & Hinput & _); [done..|].
  exists hm, s', (fresh (dom (tensors s))),
    (masked_at tokenizer ids <$> py_range start_pos (end_pos + 1)).
  split; [done|]. split; [apply fresh_tensor|]. do 2 (split; [done|]). split.
  { rewrite Htrace, !forward_passes_app, forward_passes_fmap. done. }
  split.
  { unfold py_range. rewrite length_fmap, length_seqZ. lia. }
  intros p Hp. exists (masked_at tokenizer ids p). split; [|split; [|split]].
  - rewrite list_lookup_fmap. unfold py_range.
    rewrite lookup_seqZ_lt by lia. simpl. do 2 f_equal. lia.
  - unfold masked_at. by rewrite length_insert.
  - destruct (framed_lookup vocab_size
                protein_sequence p) as (c & _ & _ & Hwt & _);
      [done|done|lia|].
    unfold masked_at. apply list_lookup_insert_eq.
    by eapply lookup_lt_Some.
  - intros j Hj. unfold masked_at. by apply list_lookup_insert_ne.
Qed.

(** C6. For a fixed sequence, fixed model, tokenizer and library functions
    and a fixed range, any two calls, whatever the states they start in,
    give the same table or the same error and the same plot, through the
    same events; each leaves the tensors that existed before it as they
    were. *)
Theorem scoring_is_deterministic (protein_sequence : string) (start_pos : Z)
    (end_pos : option Z) (s1 s2 : State) :
  (generate_heatmap_llr protein_sequence start_pos end_pos s1).1
  = (generate_heatmap_llr protein_sequence start_pos end_pos s2).1
  ∧ (generate_heatmap protein_sequence start_pos end_pos s1).1
    = (generate_heatmap protein_sequence start_pos end_pos s2).1
  ∧ (∃ events,
       trace (generate_heatmap protein_sequence start_pos end_pos s1).2
       = trace s1 ++ events
       ∧ trace (generate_heatmap protein_sequence start_pos end_pos s2).2
         = trace s2 ++ events)
  ∧ tensors s1 ⊆ tensors (generate_heatmap protein_sequence start_pos end_pos s1).2
  ∧ tensors s2 ⊆ tensors (generate_heatmap protein_sequence start_pos end_pos s2).2.
Proof.
  destruct (generate_heatmap_llr_run protein_sequence start_pos end_pos s1) as (t1 & -> & _).
  destruct (generate_heatmap_llr_run protein_sequence start_pos end_pos s2) as (t2 & -> & _).
  destruct (generate_heatmap_run protein_sequence start_pos end_pos s1) as (u1 & -> & Htr1 & Hsub1).
  destruct (generate_heatmap_run protein_sequence start_pos end_pos s2) as (u2 & -> & Htr2 & Hsub2).
  cbn [fst snd]. split; [done|]. split; [done|]. split; [|done].
  eexists. split; [exact Htr1|exact Htr2].
Qed.

(** C7. For every request of the sliders with [start > end] nothing is
    computed: the callback returns at once, without an error and without
    any event or change of state. *)
Theorem update_heatmap_skips (protein_sequence : string) (start end_ : Z)
    (s : State) :
  start > end_ →
  update_heatmap protein_sequence start end_ s = (Ok (), s).
Proof. intros Hgt. unfold update_heatmap. by rewrite decide_False by lia. Qed.

(** C8, as the code has it. The scorer checks neither the residues nor the
    vocabulary lookups: whenever the tokenizer turns the sequence, whatever
    its symbols, into [L + 2] ids of the vocabulary and answers the 20
    lookups with ids of the vocabulary, a call on a valid range returns
    without an error and every cell of its 20 by [end - start + 1] table
    holds a number. *)
Theorem residues_are_not_validated (protein_sequence : string)
    (start_pos end_pos : Z) (s : State) :
  Shapes model vocab_size →
  encodable tokenizer vocab_size protein_sequence →
  1 ≤ start_pos ≤ end_pos ∧ end_pos ≤ Z.of_nat (String.length protein_sequence) →
  ∃ heatmap s',
    generate_heatmap_llr protein_sequence start_pos (Some end_pos) s
    = (Ok (heatmap, end_pos), s')
    ∧ (generate_heatmap protein_sequence start_pos (Some end_pos) s).1 = Ok ()
    ∧ shape heatmap 20 (Z.to_nat (end_pos - start_pos + 1))
    ∧ ∀ i j, (i < 20)%nat → (j < Z.to_nat (end_pos - start_pos + 1))%nat →
        is_Some (cell heatmap i j).
Proof.
  intros Hshapes Henc [Hstart Hend].
  destruct (llr_valid protein_sequence start_pos end_pos s)
    as (hm & s' & Hrun & Hshape & _); [done| | |lia|].
  { destruct Henc as (_ & _ & Haa). rewrite Forall_forall in Haa. exact Haa. }
  { intros p Hp. split; [lia|].
    apply (encodable_lookup vocab_size); [done|lia]. }
  exists hm, s'. split; [done|]. split; [|split; [done|]].
  - rewrite (generate_heatmap_shows _ _ _ _ _ _ _ Hrun); [done|].
    by apply plt_xticks_inside.
  - intros i j Hi Hj. by eapply cell_is_Some.
Qed.

Lemma py_slice_empty {A} (l : list A) (a : Z) : py_slice l a a = [].
Proof. unfold py_slice. by rewrite Z.sub_diag. Qed.

Lemma np_zeros_Ok (rows cols : Z) (a : ndarray) :
  np_zeros rows cols = Ok a → 0 ≤ rows ∧ 0 ≤ cols.
Proof. unfold np_zeros. case_decide; [done|lia]. Qed.

Lemma llr_outcome_loads (protein_sequence : string) (start_pos : Z)
    (end_pos : option Z) :
  ∃ events,
    (llr_outcome protein_sequence start_pos end_pos).2
    = loads ++ events.
Proof.
  unfold llr_outcome. cbv zeta.
  destruct (np_zeros _ _) as [hm|e]; [|by exists []].
  destruct (positions_outcome _ _ _ _ _ _) as [res events].
  by exists events.
Qed.

(** C9, as the code has it. The scorer takes the sequence and the range
    only: every call loads the tokenizer and then the model of the fixed
    name [facebook/esm2_t6_8M_UR50D] itself, before anything else. *)
Theorem every_call_loads_the_model (protein_sequence : string) (start_pos : Z)
    (end_pos : option Z) (s : State) :
  ∃ events,
    trace (generate_heatmap protein_sequence start_pos end_pos s).2
    = trace s ++ AutoTokenizer_loaded "facebook/esm2_t6_8M_UR50D"
              :: EsmForMaskedLM_loaded "facebook/esm2_t6_8M_UR50D"
              :: events.
Proof.
  destruct (generate_heatmap_run protein_sequence start_pos end_pos s) as (s' & -> & Htrace & _).
  cbn [snd]. rewrite Htrace. unfold heatmap_outcome.
  destruct (llr_outcome_loads protein_sequence start_pos end_pos)
    as [events Hevents].
  destruct (llr_outcome _ _ _) as [[[hm e]|err] events'];
    cbn [fst snd] in *; subst events'.
  - cbv zeta. destruct (plt_xticks _ _) as [[]|err]; cbn [snd].
    + eexists. rewrite <- app_assoc. done.
    + by exists events.
  - by exists events.
Qed.

(** C10. [generate_heatmap] does not check [start_pos] against [end_pos]:
    called with [start_pos > end_pos] it loads the tokenizer and the model,
    tokenizes, and asks NumPy for a table of [end_pos - start_pos + 1]
    columns, which raises when that number is negative; otherwise it scores
    the empty range and plots the empty table.  In neither case is the call
    the no-op that the callback of the sliders makes of such a request. *)
Theorem generate_heatmap_is_unguarded (protein_sequence : string)
    (start_pos end_pos : Z) (s : State) :
  start_pos > end_pos →
  let s1 := {| tensors := <[fresh (dom (tensors s))
                            := encode tokenizer protein_sequence]> (tensors s);
               trace := trace s ++ loads |} in
  generate_heatmap protein_sequence start_pos (Some end_pos) s
  = match np_zeros 20 (end_pos - start_pos + 1) with
    | Ok heatmap =>
        (Ok (), {| tensors := tensors s1;
                   trace := trace s1 ++ [plt_show heatmap [] []] |})
    | Raise e => (Raise e, s1)
    end
  ∧ np_zeros 20 (end_pos - start_pos + 1)
    = (if decide (end_pos + 1 < start_pos) then Raise ValueError
       else Ok (replicate 20 []))
  ∧ generate_heatmap protein_sequence start_pos (Some end_pos) s
    ≠ update_heatmap protein_sequence start_pos end_pos s.
Proof.
  intros Hgt s1.
  assert (generate_heatmap protein_sequence start_pos (Some end_pos) s
          = match np_zeros 20 (end_pos - start_pos + 1) with
            | Ok heatmap =>
                (Ok (), {| tensors := tensors s1;
                           trace := trace s1 ++ [plt_show heatmap [] []] |})
            | Raise e => (Raise e, s1)
            end) as Hrun.
  { unfold generate_heatmap, generate_heatmap_llr.
    rewrite M_bind_run.
    do 2 (rewrite M_bind_run; unfold emit at 1; cbv beta iota).
    rewrite M_bind_run. unfold tensor_new at 1. cbv beta iota zeta.
    rewrite M_bind_run. unfold tensor_read at 1.
    cbn [tensors trace]. rewrite lookup_insert_eq. cbv beta iota.
    rewrite M_bind_run. unfold lift at 1.
    change (default _ (Some end_pos)) with end_pos.
    rewrite (py_range_nil start_pos) by lia.
    destruct (np_zeros 20 (end_pos - start_pos + 1)) as [hm|e] eqn:Hzeros;
      [|subst s1].
    - apply np_zeros_Ok in Hzeros.
      rewrite M_bind_run. cbn [for_in]. unfold mret at 1 2, M_ret.
      cbv beta iota zeta. rewrite (py_range_nil 0) by lia.
      replace end_pos with (start_pos - 1) by lia. rewrite py_slice_empty.
      rewrite M_bind_run. unfold lift at 1. rewrite plt_xticks_no_label.
      unfold emit. cbn [tensors trace].
      subst s1. cbn [tensors trace]. unfold loads. by rewrite <- !app_assoc.
    - unfold loads. by rewrite <- !app_assoc. }
  split; [done|]. split.
  - unfold np_zeros. repeat case_decide; try lia; [done|].
    by replace (end_pos - start_pos + 1) with 0 by lia.
  - rewrite Hrun. unfold update_heatmap. rewrite decide_False by lia.
    unfold mret, M_ret.
    assert (trace s1 ≠ trace s) as Hne.
    { intros Heq%(f_equal length). subst s1. cbn [trace] in Heq.
      rewrite length_app in Heq. simpl in Heq. lia. }
    destruct (np_zeros 20 (end_pos - start_pos + 1)) as [hm|e]; [|done].
    intros Heq. injection Heq as Hst.
    apply (f_equal trace), (f_equal length) in Hst.
    subst s1. cbn [trace] in Hst. rewrite !length_app in Hst. simpl in Hst. lia.
Qed.

End claims.

(** * The claims on examples *)

(** C4 on [MAPLRKT], positions 1 to 3. *)
Lemma table_dimensions_witness :
  ∃ heatmap s',
    generate_heatmap_llr "MAPLRKT" 1 (Some 3) Esm2.initial
    = (Ok (heatmap, 3), s')
    ∧ length heatmap = 20%nat
    ∧ Forall (λ row, Z.of_nat (length row) = 3) heatmap.
Proof.
  destruct (table_dimensions Esm2.vocab_size "MAPLRKT" 1 3 Esm2.initial)
    as (hm & s' & Hrun & Hrows & Hcols & _).
  - exact Esm2_shapes.
  - exact Esm2_frames.
  - by_computation.
  - cbn. lia.
  - exists hm, s'. split; [exact Hrun|]. split; [exact Hrows|exact Hcols].
Defined.

(** C1 on [MAPLRKT]: position 2 (residue [A]), the row of [W]. *)
Lemma cell_is_log_likelihood_ratio_witness :
  ∃ heatmap s' log_prob_mt log_prob_wt,
    generate_heatmap_llr "MAPLRKT" 1 (Some 3) Esm2.initial
    = (Ok (heatmap, 3), s')
    ∧ let log_probabilities :=
        log_softmax_at Esm2.model
          (masked_at Esm2.tokenizer (encode Esm2.tokenizer "MAPLRKT") 2) 2 in
      log_probabilities !! Z.to_nat (Esm2.token_id "W") = Some log_prob_mt
      ∧ log_probabilities !! Z.to_nat (Esm2.token_id "A") = Some log_prob_wt
      ∧ cell heatmap 18 1 = Some (log_prob_mt - log_prob_wt)%float.
Proof.
  destruct (cell_is_log_likelihood_ratio Esm2.vocab_size "MAPLRKT" 1 3
              Esm2.initial) as (hm & s' & Hrun & _ & Hcell).
  - exact Esm2_shapes.
  - exact Esm2_frames.
  - by_computation.
  - cbn. lia.
  - destruct (Hcell 2 18%nat "W") as (c & mt & wt & Hc & Hmt & Hwt & Hv);
      [lia|reflexivity|].
    vm_compute in Hc. injection Hc as <-.
    exists hm, s', mt, wt.
    split; [exact Hrun|]. split; [exact Hmt|]. split; [exact Hwt|exact Hv].
Defined.

(** C3 on [MAPLRKT]: position 1 (residue [M]), the row of [M]. *)
Lemma wild_type_row_is_zero_witness :
  ∃ heatmap s' log_prob_wt,
    generate_heatmap_llr "MAPLRKT" 1 (Some 3) Esm2.initial
    = (Ok (heatmap, 3), s')
    ∧ log_prob_wt_at Esm2.tokenizer Esm2.model
        (encode Esm2.tokenizer "MAPLRKT") 1 = Some log_prob_wt
    ∧ PrimFloat.is_finite log_prob_wt = true
    ∧ cell heatmap 10 0 = Some 0%float.
Proof.
  destruct (wild_type_row_is_zero Esm2.vocab_size "MAPLRKT" 1 3 Esm2.initial
              1 10%nat "M")
    as (hm & s' & lwt & Hrun & Hlwt & _ & Hzero & _).
  - exact Esm2_shapes.
  - exact Esm2_frames.
  - by_computation.
  - cbn. lia.
  - lia.
  - reflexivity.
  - reflexivity.
  - assert (PrimFloat.is_finite lwt = true) as Hfinite.
    { vm_compute in Hlwt. injection Hlwt as <-. vm_compute. reflexivity. }
    exists hm, s', lwt. split; [exact Hrun|]. split; [exact Hlwt|].
    split; [exact Hfinite|]. exact (Hzero Hfinite).
Defined.

(** C2 on [MAPLRKT]: the pass for position 2 has the mask at index 2. *)
Lemma masked_index_is_position_witness :
  ∃ heatmap s',
    generate_heatmap_llr "MAPLRKT" 1 (Some 3) Esm2.initial
    = (Ok (heatmap, 3), s')
    ∧ forward_passes (trace s') !! 1%nat
      = Some [0; 20; 32; 14; 4; 10; 15; 11; 2].
Proof.
  destruct (masked_index_is_position Esm2.vocab_size "MAPLRKT" 1 3
              Esm2.initial) as (hm & s' & passes & Hrun & Hpasses & Hp).
  - exact Esm2_shapes.
  - exact Esm2_frames.
  - by_computation.
  - cbn. lia.
  - exists hm, s'. split; [exact Hrun|].
    destruct (Hp 2) as [Hmasked _]; [lia|].
    rewrite Hpasses. exact Hmasked.
Defined.

(** C5 on [MAPLRKT], positions 1 to 3. *)
Lemma masking_does_not_leak_witness :
  ∃ heatmap s' input_ids,
    generate_heatmap_llr "MAPLRKT" 1 (Some 3) Esm2.initial
    = (Ok (heatmap, 3), s')
    ∧ tensors s' !! input_ids = Some [0; 20; 5; 14; 4; 10; 15; 11; 2]
    ∧ length (forward_passes (trace s')) = 3%nat.
Proof.
  destruct (masking_does_not_leak Esm2.vocab_size "MAPLRKT" 1 3 Esm2.initial)
    as (hm & s' & r & passes & Hrun & _ & Hr & _ & Hpasses & Hlen & _).
  - exact Esm2_shapes.
  - exact Esm2_frames.
  - by_computation.
  - cbn. lia.
  - exists hm, s', r. split; [exact Hrun|]. split; [exact Hr|].
    rewrite Hpasses. exact Hlen.
Defined.

(** C7 on the request [start = 3], [end = 1]. *)
Lemma update_heatmap_skips_witness :
  update_heatmap "MAPLRKT" 3 1 Esm2.initial = (Ok (), Esm2.initial).
Proof. apply (update_heatmap_skips "MAPLRKT" 3 1 Esm2.initial). lia. Defined.

(** C8 on [MXK], whose [X] is in the vocabulary and not in the alphabet. *)
Lemma residues_are_not_validated_witness :
  ¬ over_alphabet "MXK"
  ∧ ∃ heatmap s',
      generate_heatmap_llr "MXK" 1 (Some 3) Esm2.initial
      = (Ok (heatmap, 3), s')
      ∧ (generate_heatmap "MXK" 1 (Some 3) Esm2.initial).1 = Ok ()
      ∧ is_Some (cell heatmap 0 1).
Proof.
  split; [by_computation|].
  destruct (residues_are_not_validated Esm2.vocab_size "MXK" 1 3 Esm2.initial)
    as (hm & s' & Hrun & Hshow & _ & Hcell).
  - exact Esm2_shapes.
  - by_computation.
  - cbn. lia.
  - exists hm, s'. split; [exact Hrun|]. split; [exact Hshow|].
    apply Hcell; cbn; lia.
Defined.

(** C10 on the direct call with [start_pos = 3], [end_pos = 1]. *)
Lemma generate_heatmap_is_unguarded_witness :
  (generate_heatmap "MAPLRKT" 3 (Some 1) Esm2.initial).1 = Raise ValueError
  ∧ generate_heatmap "MAPLRKT" 3 (Some 1) Esm2.initial
    ≠ update_heatmap "MAPLRKT" 3 1 Esm2.initial.
Proof.
  destruct (generate_heatmap_is_unguarded "MAPLRKT" 3 1 Esm2.initial)
    as (Hrun & Hzeros & Hne); [lia|].
  split; [|exact Hne]. rewrite Hrun, Hzeros. reflexivity.
Defined.

(** C2 as the specification has it, that the index masked for position
    [p] is [p + 1], fails: for position 1 of [MAP] the only forward pass
    has the mask at index 1, and at index 2 the id of the second residue. *)
Lemma mask_is_not_at_p_plus_one :
  ∃ masked,
    forward_passes (trace (generate_heatmap "MAP" 1 (Some 1) Esm2.initial).2)
    = [masked]
    ∧ masked !! Z.to_nat 1 = Some (mask_token_id Esm2.tokenizer)
    ∧ masked !! Z.to_nat (1 + 1)
      = encode Esm2.tokenizer "MAP" !! Z.to_nat (1 + 1)
    ∧ masked !! Z.to_nat (1 + 1) ≠ Some (mask_token_id Esm2.tokenizer).
Proof. exists [0; 32; 5; 14; 2]. by vm_compute. Qed.

(** C3 as the specification has it fails: on the valid range 1 to 3 of
    [MAP], with libraries of the right shapes whose model is so sure of
    [L] that the probability of the wild type [M] at position 1 underflows
    to 0, the logarithm is minus infinity and the cell of row [M], column
    0, is not 0 but the difference of two infinities, which is not a
    number. *)
Lemma wild_type_row_can_be_nan :
  @Shapes Underflow.imports Underflow.model Esm2.vocab_size
  ∧ Frames Esm2.tokenizer Esm2.vocab_size
  ∧ over_alphabet "MAP"
  ∧ list_str "MAP" !! Z.to_nat (1 - 1) = Some "M"
  ∧ amino_acids !! 10%nat = Some "M"
  ∧ @log_prob_wt_at Underflow.imports Esm2.tokenizer Underflow.model
      (encode Esm2.tokenizer "MAP") 1 = Some neg_infinity
  ∧ ∃ heatmap s',
      @generate_heatmap_llr Underflow.imports "MAP" 1 (Some 3) Esm2.initial
      = (Ok (heatmap, 3), s')
      ∧ cell heatmap 10 (Z.to_nat (1 - 1)) = Some nan
      ∧ cell heatmap 10 (Z.to_nat (1 - 1)) ≠ Some 0%float.
Proof.
  split; [exact Underflow_shapes|]. split; [exact Esm2_frames|].
  split; [by_computation|]. split; [reflexivity|]. split; [reflexivity|].
  split; [vm_compute; reflexivity|].
  destruct (@generate_heatmap_llr Underflow.imports "MAP" 1 (Some 3)
              Esm2.initial) as [ [ [hm e]|err] s'] eqn:Hrun;
    vm_compute in Hrun; [|discriminate Hrun].
  injection Hrun as <- <- <-.
  eexists _, _. split; [reflexivity|]. split; [vm_compute; reflexivity|].
  vm_compute. discriminate.
Qed.

(** C8 as the specification has it fails: [X] is not one of the 20
    letters, and the call on [MXK] returns and plots a table of numbers. *)
Lemma unknown_residue_is_scored :
  ¬ over_alphabet "MXK"
  ∧ (generate_heatmap "MXK" 1 (Some 3) Esm2.initial).1 = Ok ()
  ∧ ∃ heatmap ticks labels,
      last (trace (generate_heatmap "MXK" 1 (Some 3) Esm2.initial).2)
      = Some (plt_show heatmap ticks labels)
      ∧ shape heatmap 20 3.
Proof.
  split; [by_computation|]. split; [by vm_compute|].
  eexists _, _, _. split; [by vm_compute|].
  split; [done|]. by_computation.
Qed.

(** C9 as the specification has it fails: the events of a call are not
    free of loads. *)
Lemma scoring_call_loads :
  ¬ Forall (λ e, is_load e = false)
      (trace (generate_heatmap "MAP" 1 (Some 3) Esm2.initial).2).
Proof. by_computation. Qed.

(** * Further properties of the notebook *)

(** ** Whatever the libraries return *)

Lemma getitem_Raise {A} (l : list A) (i : Z) (e : PyError) :
  getitem l i = Raise e → e = IndexError.
Proof.
  unfold getitem. destruct (py_index _ _); [|congruence].
  destruct (_ !! _); congruence.
Qed.

Lemma setitem_Raise {A} (l : list A) (i : Z) (x : A) (e : PyError) :
  setitem l i x = Raise e → e = IndexError.
Proof. unfold setitem. destruct (py_index _ _); congruence. Qed.

Lemma setitem_Ok {A} (l l' : list A) (i : Z) (x : A) :
  setitem l i x = Ok l' →
  ∃ k, py_index (length l) i = Some k ∧ l' = <[k := x]> l.
Proof.
  unfold setitem. destruct (py_index _ _) as [k|]; [|done].
  intros [= <-]. eauto.
Qed.

Lemma getitem_Ok {A} (l : list A) (i : Z) (x : A) :
  getitem l i = Ok x → ∃ k, py_index (length l) i = Some k ∧ l !! k = Some x.
Proof.
  unfold getitem. destruct (py_index _ _) as [k|]; [|done].
  destruct (l !! k) eqn:Hk; [|done]. intros [= <-]. eauto.
Qed.

Lemma ndarray_setitem_Raise (a : ndarray) (i j : Z) (v : float) (e : PyError) :
  ndarray_setitem a i j v = Raise e → e = IndexError.
Proof.
  unfold ndarray_setitem.
  destruct (getitem a i) as [row|e'] eqn:Hrow; simpl;
    [|intros [= <-]; by eapply getitem_Raise].
  destruct (setitem row j v) as [row'|e'] eqn:Hset; simpl;
    [|intros [= <-]; by eapply setitem_Raise].
  apply setitem_Raise.
Qed.

Lemma ndarray_setitem_shape (a a' : ndarray) (i j : Z) (v : float)
    (rows cols : nat) :
  ndarray_setitem a i j v = Ok a' → shape a rows cols → shape a' rows cols.
Proof.
  unfold ndarray_setitem. intros Hset [Hrows Hcols].
  destruct (getitem a i) as [row|] eqn:Hrow; [|done]. simpl in Hset.
  destruct (setitem row j v) as [row'|] eqn:Hrow'; [|done]. simpl in Hset.
  apply getitem_Ok in Hrow as (k & _ & Hk).
  apply setitem_Ok in Hrow' as (k' & _ & ->).
  apply setitem_Ok in Hset as (k'' & _ & ->).
  split; [by rewrite length_insert|].
  apply Forall_insert; [done|]. rewrite length_insert.
  rewrite Forall_lookup in Hcols. by eapply Hcols.
Qed.

Lemma score_variant_general (tokenizer : Tokenizer)
    (log_probabilities : list float) (log_prob_wt : float)
    (start_pos position : Z) (entry : Z * string) (heatmap : ndarray)
    (rows cols : nat) :
  shape heatmap rows cols →
  match score_variant tokenizer log_probabilities log_prob_wt
          start_pos position entry heatmap with
  | Ok heatmap' => shape heatmap' rows cols
  | Raise e => e = IndexError
  end.
Proof.
  intros Hshape. destruct entry as [i a]. unfold score_variant.
  destruct (getitem log_probabilities (convert_tokens_to_ids tokenizer a))
    as [mt|e] eqn:Hmt; [|by eapply getitem_Raise].
  rewrite bind_Ok.
  destruct (ndarray_setitem heatmap i (position - start_pos)
              (mt - log_prob_wt)%float) as [hm1|e] eqn:Hset;
    [by eapply ndarray_setitem_shape|by eapply ndarray_setitem_Raise].
Qed.

Lemma score_variants_general (tokenizer : Tokenizer)
    (log_probabilities : list float) (log_prob_wt : float)
    (start_pos position : Z) (entries : list (Z * string)) :
  ∀ (heatmap : ndarray) (rows cols : nat),
  shape heatmap rows cols →
  match for_in entries
          (score_variant tokenizer log_probabilities log_prob_wt
             start_pos position) heatmap with
  | Ok heatmap' => shape heatmap' rows cols
  | Raise e => e = IndexError
  end.
Proof.
  induction entries as [|entry entries IH]; intros heatmap rows cols Hshape.
  - done.
  - cbn [for_in].
    pose proof (score_variant_general tokenizer log_probabilities log_prob_wt
                  start_pos position entry heatmap rows cols Hshape) as Hstep.
    destruct (score_variant tokenizer log_probabilities log_prob_wt
                start_pos position entry heatmap) as [hm1|e]; [|done].
    rewrite bind_Ok. by apply IH.
Qed.

Section general.

Context `{!Imports}.
Variables (tokenizer : Tokenizer) (model : Model).

Lemma score_masked_general (ids masked : list Z) (start_pos position : Z)
    (heatmap : ndarray) (rows cols : nat) :
  shape heatmap rows cols →
  match score_masked tokenizer model ids masked start_pos position heatmap with
  | Ok heatmap' => shape heatmap' rows cols
  | Raise e => e = IndexError
  end.
Proof.
  intros Hshape. unfold score_masked.
  destruct (getitem (model masked) position) as [row|e] eqn:Hrow;
    [|by eapply getitem_Raise].
  rewrite bind_Ok.
  destruct (getitem ids position) as [wt|e] eqn:Hwt;
    [|by eapply getitem_Raise].
  rewrite bind_Ok.
  destruct (getitem (torch_log <$> softmax row) wt) as [lwt|e] eqn:Hlwt;
    [|by eapply getitem_Raise].
  rewrite bind_Ok. by apply score_variants_general.
Qed.

(** The loop either goes through every position, each an index of the
    tokenized sequence as Python counts, with one forward pass on the
    sequence masked there, or stops with an [IndexError] after a forward
    pass for some of the positions. *)
Lemma positions_outcome_general (ids : list Z) (start_pos : Z)
    (positions : list Z) :
  ∀ (heatmap : ndarray) (rows cols : nat),
  shape heatmap rows cols →
  match positions_outcome tokenizer model ids start_pos positions heatmap with
  | (Ok heatmap', events) =>
      shape heatmap' rows cols
      ∧ ∃ passes, events = forward_pass <$> passes
          ∧ Forall2 (λ p masked, masked_at_index tokenizer ids p = Some masked)
              positions passes
  | (Raise e, events) =>
      e = IndexError
      ∧ (length events ≤ length positions)%nat
      ∧ Forall (λ ev, ∃ masked, ev = forward_pass masked) events
  end.
Proof.
  induction positions as [|p ps IH]; intros heatmap rows cols Hshape.
  - split; [done|]. exists []. by split.
  - cbn [positions_outcome].
    destruct (setitem ids p (mask_token_id tokenizer)) as [masked|e] eqn:Hset.
    + pose proof (score_masked_general ids masked start_pos p heatmap rows cols
                    Hshape) as Hscore.
      destruct (score_masked _ _ ids masked start_pos p heatmap) as [hm1|e].
      * specialize (IH hm1 rows cols Hscore).
        destruct (positions_outcome _ _ ids start_pos ps hm1) as [[hm2|e] evs].
        -- destruct IH as (Hshape2 & passes & -> & Hpasses). split; [done|].
           apply setitem_Ok in Hset as (k & Hk & ->).
           exists (<[k := mask_token_id tokenizer]> ids :: passes).
           split; [done|]. constructor; [|done].
           unfold masked_at_index. by rewrite Hk.
        -- destruct IH as (-> & Hlen & Hall). split; [done|].
           split; [simpl; lia|]. constructor; eauto.
      * split; [done|]. split; [simpl; lia|]. repeat constructor. eauto.
    + split; [by eapply setitem_Raise|]. split; [simpl; lia|]. constructor.
Qed.

(** A position that is no index of the tokenized sequence stops the loop. *)
Lemma positions_outcome_out_of_range (ids : list Z) (start_pos : Z)
    (positions : list Z) :
  ∀ heatmap : ndarray,
  Exists (λ p, py_index (length ids) p = None) positions →
  ∃ e events,
    positions_outcome tokenizer model ids start_pos positions heatmap
    = (Raise e, events).
Proof.
  induction positions as [|p ps IH]; intros heatmap Hex.
  - by apply Exists_nil in Hex.
  - cbn [positions_outcome]. unfold setitem.
    destruct (py_index (length ids) p) as [k|] eqn:Hk; [|eauto].
    apply Exists_cons in Hex as [Hp|Hps]; [congruence|].
    destruct (score_masked _ _ _ _ _ _ _) as [hm1|e]; [|eauto].
    destruct (IH hm1 Hps) as (e & events & ->). eauto.
Qed.

End general.

Lemma py_index_lt (n : nat) (i : Z) (k : nat) :
  py_index n i = Some k → (k < n)%nat ∧ - Z.of_nat n ≤ i < Z.of_nat n.
Proof. unfold py_index. repeat case_decide; intros; simplify_eq; lia. Qed.

Lemma py_index_None (n : nat) (i : Z) :
  py_index n i = None ↔ ¬ (- Z.of_nat n ≤ i < Z.of_nat n).
Proof. unfold py_index. repeat case_decide; split; (done || lia). Qed.

Lemma plots_app (t1 t2 : list Event) : plots (t1 ++ t2) = plots t1 ++ plots t2.
Proof. apply omap_app. Qed.

Lemma plots_forward_passes (events : list Event) :
  Forall (λ ev, ∃ masked, ev = forward_pass masked) events → plots events = [].
Proof.
  induction 1 as [|ev events [masked ->] _ IH]; [done|]. exact IH.
Qed.

Lemma forward_passes_length (events : list Event) :
  Forall (λ ev, ∃ masked, ev = forward_pass masked) events →
  length (forward_passes events) = length events.
Proof.
  induction 1 as [|ev events [masked ->] _ IH]; [done|]. simpl. by f_equal.
Qed.

Lemma forward_pass_events (events : list Event) :
  Forall (λ ev, ∃ masked, ev = forward_pass masked) events →
  events = forward_pass <$> forward_passes events.
Proof.
  induction 1 as [|ev events [masked ->] _ IH]; [done|]. simpl. by f_equal.
Qed.

Lemma forward_passes_of_passes (passes : list (list Z)) :
  forward_passes (forward_pass <$> passes) = passes.
Proof. induction passes as [|x l IH]; [done|]. simpl. by f_equal. Qed.

Lemma Forall_forward_pass (passes : list (list Z)) :
  Forall (λ ev, ∃ masked, ev = forward_pass masked) (forward_pass <$> passes).
Proof. apply Forall_fmap, Forall_forall. intros masked _. by exists masked. Qed.

Section outcome_general.

Context `{!Imports}.

#[local] Abbreviation tokenizer := (AutoTokenizer_from_pretrained model_name).
#[local] Abbreviation model := (EsmForMaskedLM_from_pretrained model_name).

(** The outcome of a call, by cases, whatever the libraries return. *)
Lemma llr_outcome_general (protein_sequence : string) (start_pos : Z)
    (end_pos : option Z) :
  let ids := encode tokenizer protein_sequence in
  let end_pos' := adjusted_end ids end_pos in
  match llr_outcome protein_sequence start_pos end_pos with
  | (Ok (heatmap, e), events) =>
      e = end_pos' ∧ start_pos ≤ end_pos' + 1
      ∧ shape heatmap 20 (Z.to_nat (end_pos' - start_pos + 1))
      ∧ ∃ passes, events = loads ++ (forward_pass <$> passes)
          ∧ Forall2 (λ p masked, masked_at_index tokenizer ids p = Some masked)
              (py_range start_pos (end_pos' + 1)) passes
  | (Raise e, events) =>
      (e = ValueError ∧ end_pos' + 1 < start_pos ∧ events = loads)
      ∨ (e = IndexError ∧ start_pos ≤ end_pos'
         ∧ ∃ passes, events = loads ++ (forward_pass <$> passes)
             ∧ Z.of_nat (length passes) ≤ end_pos' - start_pos + 1)
  end.
Proof.
  intros ids end_pos'. unfold llr_outcome. cbv zeta.
  fold ids. fold (adjusted_end ids end_pos). fold end_pos'.
  unfold np_zeros. case_decide as Hneg.
  { left. split; [done|]. split; [lia|done]. }
  set (heatmap0 := replicate (Z.to_nat 20)
                     (replicate (Z.to_nat (end_pos' - start_pos + 1)) 0%float)).
  assert (shape heatmap0 20 (Z.to_nat (end_pos' - start_pos + 1))) as Hshape0.
  { unfold heatmap0. split; [by rewrite length_replicate|].
    apply Forall_replicate. by rewrite length_replicate. }
  destruct (decide (start_pos ≤ end_pos')) as [Hle|Hgt].
  - pose proof (positions_outcome_general tokenizer model ids start_pos
                  (py_range start_pos (end_pos' + 1)) heatmap0
                  20 (Z.to_nat (end_pos' - start_pos + 1)) Hshape0) as Hloop.
    destruct (positions_outcome _ _ ids start_pos _ _) as [[hm|e] events].
    + destruct Hloop as (Hshape & passes & -> & Hpasses).
      simpl. split; [done|]. split; [lia|]. split; [done|]. eauto.
    + destruct Hloop as (-> & Hlen & Hall).
      simpl. right. split; [done|]. split; [done|].
      unfold py_range in Hlen. rewrite length_seqZ in Hlen.
      exists (forward_passes events). split.
      * by rewrite <- forward_pass_events.
      * rewrite forward_passes_length by done. lia.
  - rewrite py_range_nil by lia. simpl.
    split; [done|]. split; [lia|]. split; [done|].
    exists []. split; [done|]. constructor.
Qed.

(** X1. What a call that returns implies: the adjusted [end_pos] is not
    more than one below [start_pos]; every position of the range is an
    index of the tokenized sequence as Python counts them, between [-n]
    and [n - 1]; and the residues that label the columns are as many as
    the columns, or none. *)
Theorem returned_call_was_in_range (protein_sequence : string)
    (start_pos : Z) (end_pos : option Z) (s : State) :
  let ids := encode tokenizer protein_sequence in
  let n := Z.of_nat (length ids) in
  let end_pos' := adjusted_end ids end_pos in
  let xlabels :=
    py_slice (list_str protein_sequence) (start_pos - 1) end_pos' in
  (generate_heatmap protein_sequence start_pos end_pos s).1 = Ok () →
  start_pos ≤ end_pos' + 1
  ∧ (∀ p, start_pos ≤ p ≤ end_pos' → - n ≤ p < n)
  ∧ (xlabels = [] ∨ Z.of_nat (length xlabels) = end_pos' - start_pos + 1).
Proof.
  intros ids n end_pos' xlabels.
  destruct (generate_heatmap_run protein_sequence start_pos end_pos s)
    as (s' & -> & _). cbn [fst]. unfold heatmap_outcome.
  pose proof (llr_outcome_general protein_sequence start_pos end_pos) as Hout.
  cbv zeta in Hout. fold ids end_pos' in Hout.
  destruct (llr_outcome protein_sequence start_pos end_pos)
    as [[[hm e]|err] events]; cbn [fst]; [|done].
  destruct Hout as (-> & Hle & _ & passes & _ & Hpasses).
  cbv zeta. fold xlabels. unfold plt_xticks.
  case_decide as Hlabels; [done|]. intros _.
  split; [done|]. split.
  - intros p Hp.
    assert (p ∈ py_range start_pos (end_pos' + 1)) as Hin
      by (apply elem_of_py_range; lia).
    apply list_elem_of_lookup in Hin as [i Hi].
    destruct (Forall2_lookup_l _ _ _ _ _ Hpasses Hi) as (masked & _ & Hmasked).
    unfold masked_at_index in Hmasked.
    destruct (py_index (length ids) p) as [k|] eqn:Hk; [|done].
    by apply py_index_lt in Hk as [_ ?].
  - destruct (decide (xlabels = [])) as [?|Hne]; [by left|right].
    destruct (decide (length xlabels
                      = length (py_range 0 (end_pos' - start_pos + 1))))
      as [Hlen|?]; [|tauto].
    rewrite Hlen, length_py_range. lia.
Qed.

(** X2. A range that leaves the indices of the tokenized sequence, below
    [-n] or from [n] on ([n] its length with the two sentinels), by less
    than [n], ends in an [IndexError] raised in the loop: [plt.show] is
    not reached, at most one forward pass was made for each position, and
    no tensor that existed before the call has changed.  (The bound keeps
    the call where the embedding follows the libraries: positions that
    are machine integers and a table that NumPy builds.) *)
Theorem out_of_range_position_raises (protein_sequence : string)
    (start_pos : Z) (end_pos : option Z) (s : State) :
  let ids := encode tokenizer protein_sequence in
  let n := Z.of_nat (length ids) in
  let end_pos' := adjusted_end ids end_pos in
  start_pos ≤ end_pos' → ¬ (- n ≤ start_pos ∧ end_pos' < n) →
  - 2 * n ≤ start_pos → end_pos' < 2 * n →
  ∃ s',
    generate_heatmap protein_sequence start_pos end_pos s
    = (Raise IndexError, s')
    ∧ plots (trace s') = plots (trace s)
    ∧ Z.of_nat (length (forward_passes (trace s')))
      ≤ Z.of_nat (length (forward_passes (trace s)))
        + (end_pos' - start_pos + 1)
    ∧ tensors s ⊆ tensors s'.
Proof.
  intros ids n end_pos' Hle Hout_of_range _ _.
  destruct (generate_heatmap_run protein_sequence start_pos end_pos s)
    as (s' & Hrun & Htrace & Hsub).
  exists s'. rewrite Hrun, Htrace. unfold heatmap_outcome.
  pose proof (llr_outcome_general protein_sequence start_pos end_pos) as Hout.
  cbv zeta in Hout. fold ids end_pos' in Hout.
  destruct (llr_outcome protein_sequence start_pos end_pos)
    as [[[hm e]|err] events]; cbn [fst snd].
  - exfalso. destruct Hout as (_ & _ & _ & passes & _ & Hpasses).
    assert (∀ p, start_pos ≤ p ≤ end_pos' → - n ≤ p < n) as Hin_range.
    { intros p Hp.
      assert (p ∈ py_range start_pos (end_pos' + 1)) as Hin
        by (apply elem_of_py_range; lia).
      apply list_elem_of_lookup in Hin as [i Hi].
      destruct (Forall2_lookup_l _ _ _ _ _ Hpasses Hi) as (masked & _ & Hm).
      unfold masked_at_index in Hm.
      destruct (py_index (length ids) p) as [k|] eqn:Hk; [|done].
      by apply py_index_lt in Hk as [_ ?]. }
    apply Hout_of_range.
    pose proof (Hin_range start_pos). pose proof (Hin_range end_pos'). lia.
  - destruct Hout as [(_ & ? & _)|(-> & _ & passes & -> & Hlen)]; [lia|].
    split; [done|]. split; [|split; [|done]].
    + rewrite !plots_app.
      rewrite (plots_forward_passes (forward_pass <$> passes))
        by apply Forall_forward_pass.
      change (plots loads) with (@nil (ndarray * list Z * list string)).
      by rewrite !app_nil_r.
    + rewrite !forward_passes_app, forward_passes_of_passes, !length_app.
      simpl. lia.
Qed.

(** X5. Whenever the loops of a call end, whatever the tokenizer and the
    model gave: the table is 20 by [end_pos - start_pos + 1] for the
    adjusted [end_pos], and there was one forward pass for each position of
    the range, in order, each on the tokenized sequence with the one index
    that the position denotes replaced by the mask id. *)
Theorem returned_table_and_passes (protein_sequence : string)
    (start_pos : Z) (end_pos : option Z) (s s' : State)
    (heatmap : ndarray) (e : Z) :
  let ids := encode tokenizer protein_sequence in
  generate_heatmap_llr protein_sequence start_pos end_pos s
  = (Ok (heatmap, e), s') →
  e = adjusted_end ids end_pos
  ∧ shape heatmap 20 (Z.to_nat (e - start_pos + 1))
  ∧ ∃ passes,
      forward_passes (trace s') = forward_passes (trace s) ++ passes
      ∧ length passes = Z.to_nat (e - start_pos + 1)
      ∧ Forall2 (λ p masked, masked_at_index tokenizer ids p = Some masked)
          (py_range start_pos (e + 1)) passes.
Proof.
  intros ids Hrun.
  destruct (generate_heatmap_llr_run protein_sequence start_pos end_pos s)
    as (s'' & Hrun' & Htrace & _).
  rewrite Hrun in Hrun'. injection Hrun' as Hres <-.
  pose proof (llr_outcome_general protein_sequence start_pos end_pos) as Hout.
  cbv zeta in Hout. fold ids in Hout.
  destruct (llr_outcome protein_sequence start_pos end_pos)
    as [[[hm e']|err] events]; cbn [fst snd] in *; [|done].
  injection Hres as <- <-.
  destruct Hout as (-> & Hle & Hshape & passes & -> & Hpasses).
  split; [done|]. split; [done|]. exists passes. split; [|split; [|done]].
  - rewrite Htrace, !forward_passes_app, forward_passes_of_passes. done.
  - apply Forall2_length in Hpasses. rewrite <- Hpasses.
    unfold py_range. rewrite length_seqZ. lia.
Qed.

End outcome_general.

(** ** Positions that are indices of the tokenized sequence *)

Section in_range.

Context `{!Imports}.
Variables (tokenizer : Tokenizer) (model : Model) (vocab_size : nat).

Hypothesis library_shapes : Shapes model vocab_size.
Hypothesis amino_acids_in_vocabulary :
  Forall (λ a, 0 ≤ convert_tokens_to_ids tokenizer a < Z.of_nat vocab_size)
    amino_acids.

Lemma score_masked_in_range (ids : list Z) (start_pos p : Z) (cols k : nat)
    (heatmap : ndarray) :
  Forall (λ t, 0 ≤ t < Z.of_nat vocab_size) ids →
  py_index (length ids) p = Some k →
  0 ≤ p - start_pos < Z.of_nat cols → shape heatmap 20 cols →
  ∃ heatmap',
    score_masked tokenizer model ids
      (<[k := mask_token_id tokenizer]> ids) start_pos p heatmap
    = Ok heatmap'.
Proof.
  intros Hids Hk Hcol Hshape.
  destruct library_shapes as [Hrows Hcols Hsoftmax].
  pose proof (py_index_lt _ _ _ Hk) as [Hlt _].
  destruct (lookup_lt_is_Some_2 ids k Hlt) as [wt Hwt].
  assert (0 ≤ wt < Z.of_nat vocab_size) as Hwt_range.
  { rewrite Forall_lookup in Hids. by eapply Hids. }
  set (masked := <[k := mask_token_id tokenizer]> ids).
  destruct (lookup_lt_is_Some_2 (model masked) k) as [row Hrow].
  { rewrite Hrows. unfold masked. by rewrite length_insert. }
  assert (length (torch_log <$> softmax row) = vocab_size) as Hlen.
  { rewrite length_fmap, Hsoftmax. eapply Hcols, list_elem_of_lookup_2, Hrow. }
  destruct (lookup_lt_is_Some_2 (torch_log <$> softmax row) (Z.to_nat wt))
    as [lwt Hlwt]; [rewrite Hlen; lia|].
  destruct (score_variants_ok tokenizer (torch_log <$> softmax row) lwt
              start_pos p heatmap cols) as (hm' & Hrun & _).
  { done. }
  { done. }
  { intros a Ha. rewrite Hlen.
    rewrite Forall_forall in amino_acids_in_vocabulary.
    by apply amino_acids_in_vocabulary. }
  exists hm'. unfold score_masked.
  assert (getitem (model masked) p = Ok row) as ->.
  { unfold getitem. rewrite Hrows. unfold masked at 1.
    by rewrite length_insert, Hk, Hrow. }
  rewrite bind_Ok.
  assert (getitem ids p = Ok wt) as ->.
  { unfold getitem. by rewrite Hk, Hwt. }
  rewrite bind_Ok.
  rewrite (getitem_nonneg _ _ lwt); [exact Hrun|lia|exact Hlwt].
Qed.

Lemma positions_in_range (ids : list Z) (start_pos : Z) (cols : nat)
    (positions : list Z) :
  ∀ heatmap : ndarray,
  Forall (λ t, 0 ≤ t < Z.of_nat vocab_size) ids →
  Forall (λ p, 0 ≤ p - start_pos < Z.of_nat cols
               ∧ is_Some (py_index (length ids) p)) positions →
  shape heatmap 20 cols →
  ∃ heatmap' events,
    positions_outcome tokenizer model ids start_pos positions heatmap
    = (Ok heatmap', events).
Proof.
  induction positions as [|p ps IH]; intros heatmap Hids Hps Hshape.
  - by eexists _, _.
  - apply Forall_cons in Hps as [[Hcol [k Hk]] Hps].
    destruct (score_masked_in_range ids start_pos p cols k heatmap)
      as [hm1 Hrun1]; [done..|].
    pose proof (score_masked_general tokenizer model ids
                  (<[k := mask_token_id tokenizer]> ids) start_pos p heatmap
                  20 cols Hshape) as Hshape1.
    rewrite Hrun1 in Hshape1.
    destruct (IH hm1 Hids Hps Hshape1) as (hm2 & events & Hrun2).
    cbn [positions_outcome]. unfold setitem. rewrite Hk, Hrun1, Hrun2.
    by eexists _, _.
Qed.

End in_range.

Section further.

Context `{!Imports}.
Variable vocab_size : nat.

#[local] Abbreviation tokenizer := (AutoTokenizer_from_pretrained model_name).
#[local] Abbreviation model := (EsmForMaskedLM_from_pretrained model_name).

Lemma llr_outcome_in_range (protein_sequence : string) (start_pos : Z)
    (end_pos : option Z) :
  let ids := encode tokenizer protein_sequence in
  let n := Z.of_nat (length ids) in
  let end_pos' := adjusted_end ids end_pos in
  Shapes model vocab_size →
  Forall (λ t, 0 ≤ t < Z.of_nat vocab_size) ids →
  Forall (λ a, 0 ≤ convert_tokens_to_ids tokenizer a < Z.of_nat vocab_size)
    amino_acids →
  start_pos ≤ end_pos' + 1 →
  (start_pos ≤ end_pos' → - n ≤ start_pos ∧ end_pos' < n) →
  ∃ heatmap events,
    llr_outcome protein_sequence start_pos end_pos
    = (Ok (heatmap, end_pos'), events).
Proof.
  intros ids n end_pos' Hshapes Hids Haa Hle Hrange.
  pose proof (llr_outcome_general protein_sequence start_pos end_pos) as Hgen.
  cbv zeta in Hgen. fold ids end_pos' in Hgen.
  unfold llr_outcome in *. cbv zeta in *.
  fold ids in Hgen |- *. fold (adjusted_end ids end_pos) in Hgen |- *.
  fold end_pos' in Hgen |- *.
  destruct (np_zeros_shape 20 (end_pos' - start_pos + 1))
    as (hm0 & Hzeros & Hshape0); [lia|lia|].
  rewrite Hzeros in Hgen |- *.
  destruct (positions_in_range tokenizer model vocab_size Hshapes Haa ids
              start_pos (Z.to_nat (end_pos' - start_pos + 1))
              (py_range start_pos (end_pos' + 1)) hm0)
    as (hm & events & Hrun); [done| |done|].
  - apply Forall_forall. intros p Hp%elem_of_py_range.
    split; [lia|].
    destruct (py_index (length ids) p) eqn:Hp'; [done|].
    apply py_index_None in Hp'. lia.
  - rewrite Hrun in Hgen |- *. simpl. by eexists _, _.
Qed.

(** The loops of a call on a range of indices of the tokenized sequence. *)
Lemma index_range_run (protein_sequence : string)
    (start_pos : Z) (end_pos : option Z) (s : State) :
  let ids := encode tokenizer protein_sequence in
  let n := Z.of_nat (length ids) in
  let end_pos' := adjusted_end ids end_pos in
  Shapes model vocab_size →
  Forall (λ t, 0 ≤ t < Z.of_nat vocab_size) ids →
  Forall (λ a, 0 ≤ convert_tokens_to_ids tokenizer a < Z.of_nat vocab_size)
    amino_acids →
  start_pos ≤ end_pos' → - n ≤ start_pos → end_pos' < n →
  ∃ heatmap s' passes,
    generate_heatmap_llr protein_sequence start_pos end_pos s
    = (Ok (heatmap, end_pos'), s')
    ∧ trace s' = trace s ++ loads ++ (forward_pass <$> passes)
    ∧ length passes = Z.to_nat (end_pos' - start_pos + 1)
    ∧ ∀ p, start_pos ≤ p ≤ end_pos' →
        passes !! Z.to_nat (p - start_pos)
        = Some (<[Z.to_nat (if decide (0 ≤ p) then p else n + p)
                  := mask_token_id tokenizer]> ids).
Proof.
  intros ids n end_pos' Hshapes Hids Haa Hle Hlo Hhi.
  destruct (llr_outcome_in_range protein_sequence start_pos end_pos)
    as (hm & events & Hout); [done|done|done|fold ids end_pos'; lia|done|].
  fold ids end_pos' in Hout.
  pose proof (llr_outcome_general protein_sequence start_pos end_pos) as Hgen.
  cbv zeta in Hgen. fold ids end_pos' in Hgen. rewrite Hout in Hgen.
  destruct Hgen as (_ & _ & _ & passes & -> & Hpasses).
  destruct (generate_heatmap_llr_run protein_sequence start_pos end_pos s)
    as (s' & Hrun & Htrace & _).
  rewrite Hout in Hrun, Htrace. cbn [fst snd] in *.
  exists hm, s', passes. split; [done|]. split; [done|]. split.
  - apply Forall2_length in Hpasses. rewrite <- Hpasses, length_py_range.
    f_equal. lia.
  - intros p Hp.
    assert (py_range start_pos (end_pos' + 1) !! Z.to_nat (p - start_pos)
            = Some p) as Hlookup.
    { unfold py_range. rewrite lookup_seqZ_lt by lia. f_equal. lia. }
    destruct (Forall2_lookup_l _ _ _ _ _ Hpasses Hlookup)
      as (masked & -> & Hmasked).
    unfold masked_at_index, py_index in Hmasked. fold n in Hmasked.
    repeat case_decide; simplify_eq/=; (done || lia).
Qed.

Lemma forward_passes_loads_passes (t : list Event) (passes : list (list Z)) :
  forward_passes (t ++ loads ++ (forward_pass <$> passes))
  = forward_passes t ++ passes.
Proof. by rewrite !forward_passes_app, forward_passes_of_passes. Qed.

Lemma plots_loads_passes (t : list Event) (passes : list (list Z)) :
  plots (t ++ loads ++ (forward_pass <$> passes)) = plots t.
Proof.
  rewrite !plots_app.
  rewrite (plots_forward_passes (forward_pass <$> passes))
    by apply Forall_forward_pass.
  change (plots loads) with (@nil (ndarray * list Z * list string)).
  by rewrite !app_nil_r.
Qed.

(** X3. Given the shapes of the library and ids of the vocabulary, the
    loops of a call score without an error every range whose positions are
    indices of the tokenized sequence as Python counts them: position 0
    and position [L + 1], the two sentinels, are masked and scored like
    residues, and a negative position [p] is scored as index [n + p], from
    the end.  The call then returns or raises as [plt.xticks] does on the
    ticks and labels of the range; a [ValueError] there comes after all
    the forward passes. *)
Theorem positions_are_python_indices (protein_sequence : string)
    (start_pos : Z) (end_pos : option Z) (s : State) :
  let ids := encode tokenizer protein_sequence in
  let n := Z.of_nat (length ids) in
  let end_pos' := adjusted_end ids end_pos in
  Shapes model vocab_size →
  Forall (λ t, 0 ≤ t < Z.of_nat vocab_size) ids →
  Forall (λ a, 0 ≤ convert_tokens_to_ids tokenizer a < Z.of_nat vocab_size)
    amino_acids →
  start_pos ≤ end_pos' → - n ≤ start_pos → end_pos' < n →
  ∃ heatmap s' passes,
    generate_heatmap_llr protein_sequence start_pos end_pos s
    = (Ok (heatmap, end_pos'), s')
    ∧ (generate_heatmap protein_sequence start_pos end_pos s).1
      = plt_xticks (py_range 0 (end_pos' - start_pos + 1))
          (py_slice (list_str protein_sequence) (start_pos - 1) end_pos')
    ∧ forward_passes (trace s') = forward_passes (trace s) ++ passes
    ∧ ∀ p, start_pos ≤ p ≤ end_pos' →
        passes !! Z.to_nat (p - start_pos)
        = Some (<[Z.to_nat (if decide (0 ≤ p) then p else n + p)
                  := mask_token_id tokenizer]> ids).
Proof.
  intros ids n end_pos' Hshapes Hids Haa Hle Hlo Hhi.
  destruct (index_range_run protein_sequence start_pos end_pos s)
    as (hm & s' & passes & Hrun & Htrace & _ & Hpasses); [done..|].
  fold ids n end_pos' in Hrun, Hpasses.
  exists hm, s', passes. split; [done|]. split; [|split; [|done] ].
  - destruct (plt_xticks (py_range 0 (end_pos' - start_pos + 1))
                (py_slice (list_str protein_sequence) (start_pos - 1)
                   end_pos')) as [ [] |e] eqn:Hticks.
    + by rewrite (generate_heatmap_shows _ _ _ _ _ _ _ Hrun Hticks).
    + by rewrite (generate_heatmap_xticks_raises _ _ _ _ _ _ _ _ Hrun Hticks).
  - rewrite Htrace. apply forward_passes_loads_passes.
Qed.

(** X4. A range of residues that is stretched by one to [L + 1], the
    index of the end sentinel, is scored in full, one forward pass for each
    of its [L - start_pos + 2] positions, and only then fails: the labels
    are the [L - start_pos + 1] residues and the ticks one more, so
    [plt.xticks] raises [ValueError] and [plt.show] is not reached. *)
Theorem range_to_end_sentinel_fails_at_xticks (protein_sequence : string)
    (start_pos : Z) (s : State) :
  let L := Z.of_nat (String.length protein_sequence) in
  Shapes model vocab_size →
  encodable tokenizer vocab_size protein_sequence →
  1 ≤ start_pos ≤ L →
  ∃ s' passes,
    generate_heatmap protein_sequence start_pos (Some (L + 1)) s
    = (Raise ValueError, s')
    ∧ forward_passes (trace s') = forward_passes (trace s) ++ passes
    ∧ Z.of_nat (length passes) = L - start_pos + 2
    ∧ plots (trace s') = plots (trace s).
Proof.
  intros L Hshapes (Hlen & Hids & Haa) Hstart.
  destruct (index_range_run protein_sequence start_pos (Some (L + 1)) s)
    as (hm & s' & passes & Hrun & Htrace & Hpasses & _);
    [done|done|done|..].
  1-3: change (adjusted_end _ (Some (L + 1))) with (L + 1);
       rewrite ?Hlen; unfold L in *; lia.
  change (adjusted_end _ (Some (L + 1))) with (L + 1) in Hrun, Hpasses.
  exists s', passes. split; [|split; [|split] ].
  - apply (generate_heatmap_xticks_raises _ _ _ _ _ _ _ _ Hrun).
    apply plt_xticks_Raise.
    + intros Hnil%(f_equal length). revert Hnil.
      unfold py_slice, py_slice_bound. rewrite !decide_False by lia.
      rewrite length_take, length_drop, length_list_str. cbn [length].
      unfold L in *. lia.
    + unfold py_slice, py_slice_bound. rewrite !decide_False by lia.
      rewrite length_take, length_drop, length_list_str, length_py_range.
      unfold L in *. lia.
  - rewrite Htrace. apply forward_passes_loads_passes.
  - rewrite Hpasses. lia.
  - rewrite Htrace. apply plots_loads_passes.
Qed.

(** X6. When a call on a range of the sequence, [1 <= start <= end <= L],
    returns, the plot it has made last has one tick and one label for each
    column of the table: tick [k] is at [k], and label [k] is the residue at
    position [start + k]. *)
Theorem tick_labels_name_the_positions (protein_sequence : string)
    (start_pos end_pos : Z) (s : State) :
  1 ≤ start_pos ≤ end_pos →
  end_pos ≤ Z.of_nat (String.length protein_sequence) →
  (generate_heatmap protein_sequence start_pos (Some end_pos) s).1 = Ok () →
  ∃ heatmap xticks xlabels,
    last (trace (generate_heatmap protein_sequence start_pos (Some end_pos) s).2)
    = Some (plt_show heatmap xticks xlabels)
    ∧ shape heatmap 20 (Z.to_nat (end_pos - start_pos + 1))
    ∧ length xticks = Z.to_nat (end_pos - start_pos + 1)
    ∧ length xlabels = Z.to_nat (end_pos - start_pos + 1)
    ∧ ∀ k, (k < Z.to_nat (end_pos - start_pos + 1))%nat →
        xticks !! k = Some (Z.of_nat k)
        ∧ xlabels !! k
          = list_str protein_sequence !! Z.to_nat (start_pos + Z.of_nat k - 1).
Proof.
  intros Hstart Hend.
  destruct (generate_heatmap_run protein_sequence start_pos (Some end_pos) s)
    as (s' & -> & Htrace & _). cbn [fst snd]. rewrite Htrace.
  unfold heatmap_outcome.
  pose proof (llr_outcome_general protein_sequence start_pos (Some end_pos))
    as Hgen. cbv zeta in Hgen.
  destruct (llr_outcome protein_sequence start_pos (Some end_pos))
    as [[[hm e]|err] events]; cbn [fst snd]; [|done].
  destruct Hgen as (-> & _ & Hshape & _).
  change (adjusted_end _ (Some end_pos)) with end_pos in *.
  cbv zeta. destruct (plt_xticks _ _) as [ [] |err]; cbn [fst snd]; [|done].
  intros _.
  eexists _, _, _. split; [by rewrite app_assoc, last_snoc|].
  split; [done|]. split; [|split].
  - unfold py_range. rewrite length_seqZ. lia.
  - rewrite py_slice_length by (rewrite ?length_list_str; lia).
    f_equal; lia.
  - intros k Hk. split.
    + unfold py_range. rewrite lookup_seqZ_lt by lia. f_equal; lia.
    + rewrite py_slice_lookup by (rewrite ?length_list_str; lia).
      f_equal; lia.
Qed.

Lemma framed_length (protein_sequence : string) :
  Frames tokenizer vocab_size → over_alphabet protein_sequence →
  length (encode tokenizer protein_sequence)
  = S (S (String.length protein_sequence)).
Proof.
  intros [_ Henc] Hseq. destruct (Henc _ Hseq) as (cls & eos & ->).
  simpl. rewrite length_app, length_fmap, length_list_str. simpl. lia.
Qed.

Lemma llr_outcome_default (protein_sequence : string) (start_pos : Z) :
  length (encode tokenizer protein_sequence)
  = S (S (String.length protein_sequence)) →
  llr_outcome protein_sequence start_pos None
  = llr_outcome protein_sequence start_pos
      (Some (Z.of_nat (String.length protein_sequence))).
Proof.
  intros Hlen. unfold llr_outcome. cbv zeta. rewrite Hlen.
  change (default ?x None) with x.
  change (default _ (Some ?x)) with x.
  by replace (Z.of_nat (S (S (String.length protein_sequence))) - 2)
    with (Z.of_nat (String.length protein_sequence)) by lia.
Qed.

(** X7. Called without [end_pos], on a sequence over the alphabet, the
    function scores from [start_pos] to the last residue: the table has
    [L - start_pos + 1] columns and the labels of the plot are the residues
    from [start_pos] on; with [start_pos] left at 1 too, the whole
    sequence. *)
Theorem default_end_is_last_residue (protein_sequence : string)
    (start_pos : Z) (s : State) :
  let L := Z.of_nat (String.length protein_sequence) in
  Shapes model vocab_size → Frames tokenizer vocab_size →
  over_alphabet protein_sequence → 1 ≤ start_pos ≤ L →
  ∃ heatmap s',
    generate_heatmap_llr protein_sequence start_pos None s
    = (Ok (heatmap, L), s')
    ∧ shape heatmap 20 (Z.to_nat (L - start_pos + 1))
    ∧ generate_heatmap protein_sequence start_pos None s
      = (Ok (),
         {| tensors := tensors s';
            trace := trace s'
                     ++ [plt_show heatmap (py_range 0 (L - start_pos + 1))
                           (drop (Z.to_nat (start_pos - 1))
                              (list_str protein_sequence))] |}).
Proof.
  intros L Hshapes Hframes Hseq Hstart.
  destruct (generate_heatmap_llr_run protein_sequence start_pos None s)
    as (s' & Hrun & _).
  rewrite llr_outcome_default in Hrun by by apply framed_length.
  destruct (llr_outcome_valid vocab_size protein_sequence start_pos L)
    as (hm & Hout & Hshape & _); [done|apply Hframes|lia| |].
  { intros p Hp.
    destruct (framed_lookup vocab_size protein_sequence p)
      as (c & _ & _ & Hc & Hc_range); [done|done|lia|].
    split; [lia|]. eauto. }
  fold L in Hrun. rewrite Hout in Hrun. cbn [fst] in Hrun.
  exists hm, s'. split; [done|]. split; [done|].
  rewrite (generate_heatmap_shows _ _ _ _ _ _ _ Hrun)
    by (apply plt_xticks_inside; unfold L in *; lia).
  rewrite py_slice_inside by (rewrite ?length_list_str; lia).
  by rewrite take_ge by (rewrite length_drop, length_list_str; lia).
Qed.

(** X8. For a sequence over the 20-letter alphabet, which the tokenizer
    frames residue by residue, and libraries of the right shapes: every
    request that the two sliders of [interactive_heatmap] can make, with
    values between 1 and [len(protein_sequence)], is either skipped or a
    range of the sequence; the callback does not raise, and when
    [start <= end] it plots a table of 20 rows and [end - start + 1]
    columns labelled with the residues from [start] to [end].  (For a
    sequence with other symbols the tokenized sequence can be shorter
    than the sliders reach, and nothing of this is claimed.) *)
Theorem slider_requests_are_ranges (protein_sequence : string)
    (start end_ : Z) (s : State) :
  Shapes model vocab_size → Frames tokenizer vocab_size →
  over_alphabet protein_sequence →
  slider_value (start_slider protein_sequence) start →
  slider_value (end_slider protein_sequence) end_ →
  ∃ s',
    update_heatmap protein_sequence start end_ s = (Ok (), s')
    ∧ (end_ < start → s' = s)
    ∧ (start ≤ end_ → ∃ heatmap,
         shape heatmap 20 (Z.to_nat (end_ - start + 1))
         ∧ last (trace s')
           = Some (plt_show heatmap (py_range 0 (end_ - start + 1))
                     (take (Z.to_nat (end_ - start + 1))
                        (drop (Z.to_nat (start - 1))
                           (list_str protein_sequence))))).
Proof.
  intros Hshapes Hframes Hseq [Hs1 Hs2] [He1 He2]. simpl in *.
  unfold update_heatmap. case_decide as Hle.
  - destruct (llr_valid_framed vocab_size protein_sequence start end_ s)
      as (hm & s' & Hrun & Hshape & _); [done|done|done|lia|].
    rewrite (generate_heatmap_shows _ _ _ _ _ _ _ Hrun)
      by (apply plt_xticks_inside; lia).
    eexists. split; [done|]. split; [lia|]. intros _.
    exists hm. split; [done|]. cbn [trace]. rewrite last_snoc.
    rewrite py_slice_inside by (rewrite ?length_list_str; lia).
    by replace (end_ - (start - 1)) with (end_ - start + 1) by lia.
  - exists s. split; [done|]. split; [done|lia].
Qed.

(** X9. In the plot of a valid range, the zeros line up with the labels:
    in every column, the row of the amino acid that the column is labelled
    with holds exactly 0, the log-probabilities of the wild types being
    finite numbers. *)
Theorem zeros_line_up_with_labels (protein_sequence : string)
    (start_pos end_pos : Z) (s : State) :
  let ids := encode tokenizer protein_sequence in
  Shapes model vocab_size → Frames tokenizer vocab_size →
  over_alphabet protein_sequence →
  1 ≤ start_pos ≤ end_pos ∧ end_pos ≤ Z.of_nat (String.length protein_sequence) →
  (∀ p, start_pos ≤ p ≤ end_pos →
     PrimFloat.is_finite <$> log_prob_wt_at tokenizer model ids p = Some true) →
  ∃ heatmap xticks xlabels s',
    generate_heatmap protein_sequence start_pos (Some end_pos) s = (Ok (), s')
    ∧ last (trace s') = Some (plt_show heatmap xticks xlabels)
    ∧ ∀ k i residue,
        xlabels !! k = Some residue → amino_acids !! i = Some residue →
        cell heatmap i k = Some 0%float.
Proof.
  intros ids Hshapes Hframes Hseq Hrange Hfinite.
  destruct (llr_valid_framed vocab_size protein_sequence start_pos end_pos s)
    as (hm & s' & Hrun & _ & _ & _ & _ & Hcell); [done..|].
  rewrite (generate_heatmap_shows _ _ _ _ _ _ _ Hrun)
    by (apply plt_xticks_inside; lia).
  eexists _, _, _, _. split; [done|]. cbn [trace].
  split; [by rewrite last_snoc|].
  intros k i residue Hlabel Hrow.
  assert (k < Z.to_nat (end_pos - start_pos + 1))%nat as Hk.
  { apply lookup_lt_Some in Hlabel.
    rewrite py_slice_length in Hlabel by (rewrite ?length_list_str; lia).
    lia. }
  rewrite py_slice_lookup in Hlabel by (rewrite ?length_list_str; lia).
  set (p := start_pos + Z.of_nat k).
  destruct (Hcell p i) as [[v Hv] Heq];
    [lia|by apply lookup_lt_Some in Hrow|].
  replace (Z.to_nat (p - start_pos)) with k in * by lia.
  rewrite Hv, Hrow in Heq. simpl in Heq. symmetry in Heq.
  apply (llr_cell_framed vocab_size) in Heq
    as (c & mt & wt & Hc & Hid & Hmt & Hwt & ->); [|done|done|lia].
  replace (Z.to_nat (p - 1)) with (Z.to_nat (start_pos - 1) + k)%nat in Hc
    by lia.
  rewrite Hlabel in Hc. injection Hc as <-.
  rewrite Hmt in Hwt. injection Hwt as <-.
  specialize (Hfinite p ltac:(lia)).
  unfold log_prob_wt_at in Hfinite. subst ids. rewrite Hid in Hfinite.
  simpl in Hfinite. rewrite Hmt in Hfinite. simpl in Hfinite.
  rewrite Hv. f_equal. apply float_sub_diag. congruence.
Qed.

End further.

(** * The job script *)

Section job_script.

Import Strings.Ascii JobScript.

Lemma optstring_lookup_option (c : ascii) :
  (if decide (c = ":"%char) then None else optstring_lookup "a:s:o:" c)
  = if is_option c then Some true else None.
Proof.
  unfold is_option. cbn [optstring_lookup].
  destruct (decide (c = ":"%char)) as [->|Hc]; [done|].
  destruct (decide (c = "a"%char)) as [->|Ha]; [done|].
  destruct (decide (c = "s"%char)) as [->|Hs]; [done|].
  destruct (decide (c = "o"%char)) as [->|Ho]; [done|].
  rewrite bool_decide_eq_false_2; [done|]. by intros [?|[?|?]].
Qed.

Lemma is_option_cases (c : ascii) :
  is_option c = true → c = "a"%char ∨ c = "s"%char ∨ c = "o"%char.
Proof. unfold is_option. by intros ?%bool_decide_eq_true. Qed.

(** A round of the loop that reads an option with its value. *)
Lemma while_getopts_option fuel name st st' sh (c : ascii) OPTARG :
  is_option c = true →
  getopts "a:s:o:" st = (option_found c OPTARG, st') →
  while_getopts (S fuel) name st sh
  = while_getopts fuel name st' (set_option c (default "" OPTARG) sh).
Proof.
  intros Hc Hget. cbn [while_getopts]. rewrite Hget. unfold set_option.
  destruct (is_option_cases c Hc) as [-> | [-> | ->] ]; done.
Qed.

(** The loop is the recursion on the arguments, whenever it has a round
    for each argument and one more. *)
Lemma while_getopts_read fuel name args sh :
  (length args < fuel)%nat →
  while_getopts fuel name {| unread := args; nextchar := "" |} sh
  = Some (read_arguments name args sh).
Proof.
  revert args sh. induction fuel as [|fuel IH]; intros args sh Hfuel; [lia|].
  destruct args as [|arg rest]; [done|].
  cbn [read_arguments].
  destruct (decide (arg = "--")) as [->|Hdd]; [done|].
  assert (Hget : getopts "a:s:o:" {| unread := arg :: rest; nextchar := "" |}
    = match arg with
      | String "-"%char (String c rest_of_arg) =>
          process_option "a:s:o:" c rest_of_arg rest
      | _ => (end_of_options, {| unread := arg :: rest; nextchar := "" |})
      end).
  { unfold getopts. cbn [nextchar unread]. by rewrite decide_False. }
  destruct arg as [|d arg']; [by cbn [while_getopts]; rewrite Hget|].
  destruct (decide (d = "-"%char)) as [->|Hd]; cycle 1.
  { cbn [while_getopts]. rewrite Hget.
    destruct d as [[] [] [] [] [] [] [] []]; done. }
  destruct arg' as [|c rest_of_arg]; [by cbn [while_getopts]; rewrite Hget|].
  unfold process_option in Hget. rewrite optstring_lookup_option in Hget.
  destruct (is_option c) eqn:Hc; cycle 1.
  { cbn [while_getopts]. by rewrite Hget. }
  destruct rest_of_arg as [|e rest_of_arg].
  - destruct rest as [|optarg rest'].
    + cbn [while_getopts]. by rewrite Hget.
    + rewrite (while_getopts_option _ _ _ _ _ _ _ Hc Hget).
      apply IH. cbn [length] in Hfuel. lia.
  - rewrite (while_getopts_option _ _ _ _ _ _ _ Hc Hget).
    apply IH. cbn [length] in Hfuel. lia.
Qed.

Lemma rounds_enough (args : list string) : (length args < rounds args)%nat.
Proof.
  unfold rounds. induction args as [|arg args IH]; cbn [foldr length]; lia.
Qed.

Lemma esm_example_read name args sh :
  esm_example name args sh
  = Some (match read_arguments name args sh with
          | (Some status, sh') => (status, sh')
          | (None, sh') => (0, report sh')
          end).
Proof.
  unfold esm_example.
  rewrite (while_getopts_read _ _ _ _ (rounds_enough args)).
  by destruct (read_arguments name args sh) as [[status|] sh'].
Qed.

Lemma read_option_args name items rest sh :
  Forall (λ item, is_option item.1 = true) items →
  read_arguments name (option_args items ++ rest) sh
  = read_arguments name rest (set_options items sh).
Proof.
  intros Hitems. revert sh.
  induction Hitems as [|[c v] items Hc _ IH]; intros sh; [done|].
  change (option_args ((c, v) :: items) ++ rest)
    with (String "-"%char (String c "") :: v :: (option_args items ++ rest)).
  cbn [read_arguments]. cbn [fst] in Hc. rewrite Hc.
  rewrite decide_False; [apply IH|].
  intros [= ->]. done.
Qed.

Lemma set_options_fields items sh :
  Forall (λ item, is_option item.1 = true) items →
  app (set_options items sh) = last_value "a"%char items (app sh)
  ∧ sequence (set_options items sh) = last_value "s"%char items (sequence sh)
  ∧ output_file (set_options items sh)
    = last_value "o"%char items (output_file sh)
  ∧ stdout (set_options items sh) = stdout sh
  ∧ stderr (set_options items sh) = stderr sh.
Proof.
  intros Hitems. revert sh.
  induction Hitems as [|[c v] items Hc _ IH]; intros sh; [done|].
  unfold set_options, last_value in *. cbn [foldl].
  destruct (IH (set_option c v sh)) as (-> & -> & -> & -> & ->).
  destruct (is_option_cases c Hc) as [-> | [-> | ->] ]; done.
Qed.

Lemma set_option_output c v sh :
  stdout (set_option c v sh) = stdout sh
  ∧ stderr (set_option c v sh) = stderr sh.
Proof. unfold set_option. by repeat case_decide. Qed.

Lemma read_operand name arg rest sh :
  is_operand arg → read_arguments name (arg :: rest) sh = (None, sh).
Proof.
  intros Harg. cbn [read_arguments]. case_decide; [done|].
  destruct arg as [|d [|c t] ]; [done| |].
  - by destruct d as [ [] [] [] [] [] [] [] [] ].
  - destruct d as [ [] [] [] [] [] [] [] [] ]; done.
Qed.

(** What the loop leaves: nothing on standard output, and on standard
    error nothing, or the message of [getopts] and the usage line. *)
Lemma read_arguments_output name args sh :
  match read_arguments name args sh with
  | (None, sh') => stdout sh' = stdout sh ∧ stderr sh' = stderr sh
  | (Some status, sh') =>
      status = 1 ∧ stdout sh' = stdout sh
      ∧ ∃ message, stderr sh' = stderr sh ++ [message; usage name]
  end.
Proof.
  remember (length args) as n eqn:Hn.
  assert (Hle : (length args ≤ n)%nat) by lia. clear Hn.
  revert args sh Hle. induction n as [|n IH]; intros args sh Hle.
  { by destruct args; [|cbn [length] in Hle; lia]. }
  destruct args as [|arg rest]; [done|].
  cbn [length] in Hle. cbn [read_arguments].
  case_decide; [done|].
  destruct arg as [|d [|c t] ]; [done| |].
  { by destruct d as [ [] [] [] [] [] [] [] [] ]. }
  destruct (decide (d = "-"%char)) as [->|Hd]; cycle 1.
  { destruct d as [ [] [] [] [] [] [] [] [] ]; done. }
  destruct (is_option c) eqn:Hc; cycle 1.
  { cbn. split; [done|]. split; [done|]. eexists.
    by rewrite <-(assoc_L (++)). }
  destruct (set_option_output c t sh) as [Hout Herr].
  destruct t as [|e t].
  - destruct rest as [|optarg rest'].
    + cbn. split; [done|]. split; [done|]. eexists.
      by rewrite <-(assoc_L (++)).
    + destruct (set_option_output c optarg sh) as [Hout' Herr'].
      specialize (IH rest' (set_option c optarg sh)).
      rewrite Hout', Herr' in IH. apply IH. cbn [length] in Hle. lia.
  - specialize (IH rest (set_option c (String e t) sh)).
    rewrite Hout, Herr in IH. apply IH. lia.
Qed.

Lemma all_options_app items c v :
  Forall (λ item : ascii * string, is_option item.1 = true) items →
  is_option c = true →
  Forall (λ item : ascii * string, is_option item.1 = true) (items ++ [(c, v)]).
Proof. intros. apply Forall_app. split; [done|]. by apply Forall_singleton. Qed.

(** X10. The script called with [-c value] pairs only, each [c] one of
    [a], [s] and [o] and the values any strings at all, exits with status
    0, writes nothing on standard error and echoes three lines that show,
    for each variable, the value of the last pair that names it, or what
    the variable held when no pair does. *)
Theorem options_set_the_variables name items sh :
  let app' := last_value "a"%char items (app sh) in
  let sequence' := last_value "s"%char items (sequence sh) in
  let output_file' := last_value "o"%char items (output_file sh) in
  Forall (λ item, is_option item.1 = true) items →
  esm_example name (option_args items) sh
  = Some (0, {| app := app'; sequence := sequence';
                output_file := output_file';
                stdout := stdout sh
                  ++ ["APP " +:+ app' +:+ " " +:+ sequence' +:+ " "
                      +:+ output_file';
                      "SEQ " +:+ sequence'; "OUT " +:+ output_file'];
                stderr := stderr sh |}).
Proof.
  intros app' sequence' output_file' Hitems.
  rewrite esm_example_read.
  rewrite <-(app_nil_r (option_args items)), read_option_args by done.
  destruct (set_options_fields items sh Hitems)
    as (Happ & Hseq & Hout & Hstdout & Hstderr).
  cbn [read_arguments]. unfold report, echo. cbn.
  rewrite Happ, Hseq, Hout, Hstdout, Hstderr.
  by rewrite <-!(assoc_L (++)).
Qed.

(** X11. The options end at the first argument that is [--], that is [-],
    or that does not begin with a dash: that argument and all that follow
    it are dropped, whatever they are, also when they look like options. *)
Theorem operands_end_the_options name items arg rest sh :
  Forall (λ item, is_option item.1 = true) items →
  is_operand arg →
  esm_example name (option_args items ++ arg :: rest) sh
  = esm_example name (option_args items) sh.
Proof.
  intros Hitems Harg. rewrite !esm_example_read.
  rewrite <-(app_nil_r (option_args items)) at 2.
  rewrite !read_option_args by done.
  by rewrite read_operand.
Qed.

(** X12. A value written in the same argument as its option, [-cvalue],
    is read as the pair [-c value], when the value is not empty. *)
Theorem attached_value name items c v rest sh :
  Forall (λ item, is_option item.1 = true) items →
  is_option c = true →
  v ≠ "" →
  esm_example name (option_args items ++ String "-"%char (String c v) :: rest) sh
  = esm_example name (option_args (items ++ [(c, v)]) ++ rest) sh.
Proof.
  intros Hitems Hc Hv. rewrite !esm_example_read.
  rewrite !read_option_args by eauto using all_options_app.
  unfold set_options at 2. rewrite foldl_app. cbn [foldl].
  fold (set_options items sh).
  destruct v as [|e v]; [done|].
  cbn [read_arguments]. rewrite Hc.
  rewrite decide_False; [done|]. by intros [=].
Qed.

(** X13. An option that is not [a], [s] or [o], long options such as
    [--app] among them, stops the script with status 1: nothing is
    echoed, and standard error gets the message of [getopts] about the
    option character and then the usage line. *)
Theorem other_options_are_refused name items c t rest sh :
  Forall (λ item, is_option item.1 = true) items →
  is_option c = false →
  String "-"%char (String c t) ≠ "--" →
  ∃ sh',
    esm_example name (option_args items ++ String "-"%char (String c t) :: rest)
      sh = Some (1, sh')
    ∧ stdout sh' = stdout sh
    ∧ stderr sh'
      = stderr sh ++ [illegal_option_message name c; usage name].
Proof.
  intros Hitems Hc Hdd. rewrite esm_example_read.
  rewrite read_option_args by done.
  destruct (set_options_fields items sh Hitems)
    as (_ & _ & _ & Hstdout & Hstderr).
  cbn [read_arguments]. rewrite Hc, decide_False by done.
  eexists. split; [done|]. cbn. rewrite Hstdout, Hstderr.
  by rewrite <-(assoc_L (++)).
Qed.

(** X14. An option [a], [s] or [o] that comes last, with no value after
    it, stops the script with status 1: nothing is echoed, and standard
    error gets the message of [getopts] and then the usage line. *)
Theorem option_without_value name items c sh :
  Forall (λ item, is_option item.1 = true) items →
  is_option c = true →
  ∃ sh',
    esm_example name (option_args items ++ [String "-"%char (String c "")]) sh
    = Some (1, sh')
    ∧ stdout sh' = stdout sh
    ∧ stderr sh'
      = stderr sh ++ [requires_argument_message name c; usage name].
Proof.
  intros Hitems Hc. rewrite esm_example_read.
  rewrite read_option_args by done.
  destruct (set_options_fields items sh Hitems)
    as (_ & _ & _ & Hstdout & Hstderr).
  cbn [read_arguments]. rewrite Hc.
  rewrite decide_False by (intros [= ->]; done).
  eexists. split; [done|]. cbn. rewrite Hstdout, Hstderr.
  by rewrite <-(assoc_L (++)).
Qed.

(** X15. Whatever its arguments, the script ends, and in one of two ways:
    with status 0, nothing on standard error and the three lines echoed
    from the variables as they then are; or with status 1, nothing
    echoed, and two lines on standard error of which the second is the
    usage line.  No argument is required and no value is checked. *)
Theorem exit_status_and_output name args sh :
  ∃ status sh',
    esm_example name args sh = Some (status, sh')
    ∧ ((status = 0
        ∧ stdout sh'
          = stdout sh
            ++ ["APP " +:+ app sh' +:+ " " +:+ sequence sh' +:+ " "
                +:+ output_file sh';
                "SEQ " +:+ sequence sh'; "OUT " +:+ output_file sh']
        ∧ stderr sh' = stderr sh)
       ∨ (status = 1
          ∧ stdout sh' = stdout sh
          ∧ ∃ message, stderr sh' = stderr sh ++ [message; usage name])).
Proof.
  rewrite esm_example_read.
  pose proof (read_arguments_output name args sh) as Hread.
  destruct (read_arguments name args sh) as [ [status|] sh'].
  - exists status, sh'. split; [done|]. right. done.
  - destruct Hread as [Hstdout Hstderr].
    eexists _, _. split; [done|]. left. split; [done|].
    unfold report, echo. cbn. rewrite Hstdout, Hstderr.
    by rewrite <-!(assoc_L (++)).
Qed.

End job_script.

(** * The exports of the environment script *)

Section env_script.
Import Strings.Ascii EnvScript.

Lemma path_entries_cons (path : string) :
  ∃ entry entries, path_entries path = entry :: entries.
Proof.
  induction path as [|c path (entry & entries & IH)]; [by eexists _, _|].
  cbn [path_entries]. case_decide; [by eexists _, _|].
  rewrite IH. by eexists _, _.
Qed.

(** The entries of two paths joined by a colon. *)
Lemma path_entries_join (path1 path2 : string) :
  path_entries (path1 +:+ ":" +:+ path2)
  = path_entries path1 ++ path_entries path2.
Proof.
  induction path1 as [|c path1 IH]; [done|].
  change (String c path1 +:+ ":" +:+ path2)
    with (String c (path1 +:+ ":" +:+ path2)).
  cbn [path_entries]. rewrite IH.
  case_decide; [done|].
  by destruct (path_entries_cons path1) as (entry & entries & ->).
Qed.

Lemma entries_of_alternative env x :
  path_entries (expand_alternative env x (":" +:+ expand env x))
  = "" :: entries_of env x.
Proof.
  unfold expand_alternative, entries_of, expand.
  destruct (env !! x) as [ [|c path]|]; done.
Qed.

Lemma exports_PATH env :
  exports env !! "PATH"
  = Some ("/n/data1/hms/ccb/projects/esm/cuda/bin" +:+ ":"
          +:+ expand_alternative env "PATH" (":" +:+ expand env "PATH")).
Proof.
  unfold exports. by rewrite !lookup_insert_ne, lookup_insert_eq by done.
Qed.

Lemma exports_LD_LIBRARY_PATH env :
  exports env !! "LD_LIBRARY_PATH"
  = Some (("/n/data1/hms/ccb/projects/esm/cuda/lib64" +:+ ":"
           +:+ expand_alternative env "LD_LIBRARY_PATH"
                 (":" +:+ expand env "LD_LIBRARY_PATH"))
          +:+ ":" +:+ "/n/data1/hms/ccb/projects/esm/cuda/extras/CUPTI/lib64").
Proof.
  unfold exports. rewrite lookup_insert_eq. f_equal.
  unfold expand at 1. rewrite lookup_insert_eq. cbn [default].
  unfold expand_alternative, expand.
  by rewrite !lookup_insert_ne by done.
Qed.

Lemma exports_other env x :
  x ≠ "PATH" → x ≠ "CUDA_PATH" → x ≠ "LD_LIBRARY_PATH" →
  exports env !! x = env !! x.
Proof. intros. unfold exports. by rewrite !lookup_insert_ne by done. Qed.

Lemma entries_of_exports_PATH env :
  entries_of (exports env) "PATH"
  = ["/n/data1/hms/ccb/projects/esm/cuda/bin"; ""] ++ entries_of env "PATH".
Proof.
  transitivity
    (path_entries
       ("/n/data1/hms/ccb/projects/esm/cuda/bin" +:+ ":"
        +:+ expand_alternative env "PATH" (":" +:+ expand env "PATH"))).
  { unfold entries_of. by rewrite exports_PATH. }
  by rewrite path_entries_join, entries_of_alternative.
Qed.

(** X16. After the exports the search path [PATH] has the [bin] directory
    of the CUDA installation first, then an empty entry, then the entries
    it had before, in their order: the [:] written after the directory
    and the [:] that the expansion adds leave an empty entry between
    them, and when [PATH] was unset or empty the value ends in a colon,
    which is an empty entry too. *)
Theorem PATH_after_exports env :
  entries_of (exports env) "PATH"
  = ["/n/data1/hms/ccb/projects/esm/cuda/bin"; ""] ++ entries_of env "PATH".
Proof. apply entries_of_exports_PATH. Qed.

(** X17. After the exports [LD_LIBRARY_PATH] has the [lib64] directory of
    the CUDA installation first, then an empty entry, then the entries it
    had before, then the [CUPTI] directory last. *)
Theorem LD_LIBRARY_PATH_after_exports env :
  entries_of (exports env) "LD_LIBRARY_PATH"
  = ["/n/data1/hms/ccb/projects/esm/cuda/lib64"; ""]
    ++ entries_of env "LD_LIBRARY_PATH"
    ++ ["/n/data1/hms/ccb/projects/esm/cuda/extras/CUPTI/lib64"].
Proof.
  transitivity
    (path_entries
       (("/n/data1/hms/ccb/projects/esm/cuda/lib64" +:+ ":"
         +:+ expand_alternative env "LD_LIBRARY_PATH"
               (":" +:+ expand env "LD_LIBRARY_PATH"))
        +:+ ":" +:+ "/n/data1/hms/ccb/projects/esm/cuda/extras/CUPTI/lib64")).
  { unfold entries_of. by rewrite exports_LD_LIBRARY_PATH. }
  by rewrite !path_entries_join, entries_of_alternative.
Qed.

(** X18. The exports are not idempotent: running them a second time in
    the same session puts the CUDA directory and an empty entry in front
    of [PATH] once more, so the environment is never the one that the
    first run left. *)
Theorem exports_twice env :
  entries_of (exports (exports env)) "PATH"
  = ["/n/data1/hms/ccb/projects/esm/cuda/bin"; "";
     "/n/data1/hms/ccb/projects/esm/cuda/bin"; ""] ++ entries_of env "PATH"
  ∧ exports (exports env) ≠ exports env.
Proof.
  assert (Htwice : entries_of (exports (exports env)) "PATH"
    = ["/n/data1/hms/ccb/projects/esm/cuda/bin"; "";
       "/n/data1/hms/ccb/projects/esm/cuda/bin"; ""] ++ entries_of env "PATH").
  { by rewrite !entries_of_exports_PATH. }
  split; [done|]. intros Heq. rewrite Heq, entries_of_exports_PATH in Htwice.
  apply (f_equal length) in Htwice. cbn [length app] in Htwice. lia.
Qed.

(** X19. The exports set [CUDA_PATH] to the CUDA installation, whatever
    it held, and leave every variable other than [PATH], [CUDA_PATH] and
    [LD_LIBRARY_PATH] as it was, set or unset. *)
Theorem exports_touch_three_variables env :
  exports env !! "CUDA_PATH" = Some "/n/data1/hms/ccb/projects/esm/cuda"
  ∧ ∀ x, x ≠ "PATH" → x ≠ "CUDA_PATH" → x ≠ "LD_LIBRARY_PATH" →
         exports env !! x = env !! x.
Proof.
  split; [|apply exports_other].
  unfold exports. by rewrite !lookup_insert_ne, lookup_insert_eq by done.
Qed.

End env_script.

(** * The further properties on examples *)

(** X1 on [MAP], positions 1 to 2. *)
Lemma returned_call_was_in_range_witness :
  1 ≤ 2 + 1
  ∧ (∀ p, 1 ≤ p ≤ 2 → - 5 ≤ p < 5)
  ∧ (py_slice (list_str "MAP") (1 - 1) 2 = []
     ∨ Z.of_nat (length (py_slice (list_str "MAP") (1 - 1) 2)) = 2 - 1 + 1).
Proof.
  assert ((generate_heatmap "MAP" 1 (Some 2) Esm2.initial).1 = Ok ())
    as Hreturns by (vm_compute; reflexivity).
  exact (returned_call_was_in_range "MAP" 1 (Some 2) Esm2.initial Hreturns).
Defined.

(** X2 on [MAPLRKT], positions 8 to 9: index 8 is the last sentinel, and
    the tokenized sequence has no index 9. *)
Lemma out_of_range_position_raises_witness :
  ∃ s',
    generate_heatmap "MAPLRKT" 8 (Some 9) Esm2.initial
    = (Raise IndexError, s')
    ∧ plots (trace s') = plots (trace Esm2.initial)
    ∧ tensors Esm2.initial ⊆ tensors s'.
Proof.
  destruct (out_of_range_position_raises "MAPLRKT" 8 (Some 9) Esm2.initial)
    as (s' & Hrun & Hplots & _ & Hsub).
  - change (8 ≤ 9). lia.
  - change (¬ (- 9 ≤ 8 ∧ 9 < 9)). lia.
  - change (- 2 * 9 ≤ 8). lia.
  - change (9 < 2 * 9). lia.
  - exists s'. split; [exact Hrun|]. split; [exact Hplots|exact Hsub].
Defined.

(** X3 on [MAP], positions 2 to 4: index 4 is the last sentinel; the three
    passes are made, and [plt.xticks] refuses two labels for three ticks. *)
Lemma positions_are_python_indices_witness :
  ∃ heatmap s' passes,
    generate_heatmap_llr "MAP" 2 (Some 4) Esm2.initial
    = (Ok (heatmap, 4), s')
    ∧ (generate_heatmap "MAP" 2 (Some 4) Esm2.initial).1 = Raise ValueError
    ∧ forward_passes (trace s')
      = forward_passes (trace Esm2.initial) ++ passes
    ∧ passes !! 2%nat = Some [0; 20; 5; 14; 32].
Proof.
  destruct (positions_are_python_indices Esm2.vocab_size "MAP" 2 (Some 4)
              Esm2.initial)
    as (hm & s' & passes & Hrun & Hcall & Hpasses & Hp).
  - exact Esm2_shapes.
  - by_computation.
  - by_computation.
  - change (2 ≤ 4). lia.
  - change (- 5 ≤ 2). lia.
  - change (4 < 5). lia.
  - exists hm, s', passes. split; [exact Hrun|]. split; [exact Hcall|].
    split; [exact Hpasses|].
    apply (Hp 4). change (2 ≤ 4 ≤ 4). lia.
Defined.

(** X4 on [MAP] from position 2. *)
Lemma range_to_end_sentinel_fails_at_xticks_witness :
  ∃ s' passes,
    generate_heatmap "MAP" 2 (Some 4) Esm2.initial = (Raise ValueError, s')
    ∧ forward_passes (trace s')
      = forward_passes (trace Esm2.initial) ++ passes
    ∧ Z.of_nat (length passes) = 3.
Proof.
  destruct (range_to_end_sentinel_fails_at_xticks Esm2.vocab_size "MAP" 2
              Esm2.initial) as (s' & passes & Hrun & Hpasses & Hlen & _).
  - exact Esm2_shapes.
  - by_computation.
  - change (1 ≤ 2 ≤ 3). lia.
  - exists s', passes. split; [exact Hrun|]. split; [exact Hpasses|exact Hlen].
Defined.

(** X5 on [MAP], position 1. *)
Lemma returned_table_and_passes_witness :
  ∃ heatmap e s',
    generate_heatmap_llr "MAP" 1 (Some 1) Esm2.initial = (Ok (heatmap, e), s')
    ∧ e = 1
    ∧ shape heatmap 20 (Z.to_nat (e - 1 + 1)).
Proof.
  destruct (generate_heatmap_llr "MAP" 1 (Some 1) Esm2.initial)
    as [ [ [hm e]|err] s'] eqn:Hrun.
  - destruct (returned_table_and_passes "MAP" 1 (Some 1) Esm2.initial s' hm e
                Hrun) as (He & Hshape & _).
    exists hm, e, s'. split; [reflexivity|]. split; [exact He|exact Hshape].
  - vm_compute in Hrun. discriminate Hrun.
Defined.

(** X6 on [MAP], positions 1 to 2: the second label is [A]. *)
Lemma tick_labels_name_the_positions_witness :
  ∃ heatmap xticks xlabels,
    last (trace (generate_heatmap "MAP" 1 (Some 2) Esm2.initial).2)
    = Some (plt_show heatmap xticks xlabels)
    ∧ xticks !! 1%nat = Some 1
    ∧ xlabels !! 1%nat = Some "A".
Proof.
  destruct (tick_labels_name_the_positions "MAP" 1 2 Esm2.initial)
    as (hm & xticks & xlabels & Hlast & _ & _ & _ & Hk).
  - lia.
  - change (2 ≤ 3). lia.
  - vm_compute. reflexivity.
  - destruct (Hk 1%nat) as [Htick Hlabel]; [change (1 < 2)%nat; lia|].
    exists hm, xticks, xlabels.
    split; [exact Hlast|]. split; [exact Htick|exact Hlabel].
Defined.

(** X7 on [MAP] from position 2, [end_pos] left out. *)
Lemma default_end_is_last_residue_witness :
  ∃ heatmap s',
    generate_heatmap_llr "MAP" 2 None Esm2.initial = (Ok (heatmap, 3), s')
    ∧ shape heatmap 20 2
    ∧ generate_heatmap "MAP" 2 None Esm2.initial
      = (Ok (),
         {| tensors := tensors s';
            trace := trace s' ++ [plt_show heatmap [0; 1] ["A"; "P"] ] |}).
Proof.
  destruct (default_end_is_last_residue Esm2.vocab_size "MAP" 2 Esm2.initial)
    as (hm & s' & Hrun & Hshape & Hshow).
  - exact Esm2_shapes.
  - exact Esm2_frames.
  - by_computation.
  - change (1 ≤ 2 ≤ 3). lia.
  - exists hm, s'. split; [exact Hrun|]. split; [exact Hshape|exact Hshow].
Defined.

(** X8 on [MAP] with the sliders at 2 and 3. *)
Lemma slider_requests_are_ranges_witness :
  ∃ s' heatmap,
    update_heatmap "MAP" 2 3 Esm2.initial = (Ok (), s')
    ∧ shape heatmap 20 2
    ∧ last (trace s') = Some (plt_show heatmap [0; 1] ["A"; "P"]).
Proof.
  destruct (slider_requests_are_ranges Esm2.vocab_size "MAP" 2 3 Esm2.initial)
    as (s' & Hrun & _ & Hplot).
  - exact Esm2_shapes.
  - exact Esm2_frames.
  - by_computation.
  - change (1 ≤ 2 ≤ 3). lia.
  - change (1 ≤ 3 ≤ 3). lia.
  - destruct Hplot as (hm & Hshape & Hlast); [lia|].
    exists s', hm. split; [exact Hrun|]. split; [exact Hshape|exact Hlast].
Defined.

(** X9 on [MAP], positions 1 to 2. *)
Lemma zeros_line_up_with_labels_witness :
  ∃ heatmap xticks xlabels s',
    generate_heatmap "MAP" 1 (Some 2) Esm2.initial = (Ok (), s')
    ∧ last (trace s') = Some (plt_show heatmap xticks xlabels)
    ∧ ∀ k i residue,
        xlabels !! k = Some residue → amino_acids !! i = Some residue →
        cell heatmap i k = Some 0%float.
Proof.
  apply (zeros_line_up_with_labels Esm2.vocab_size "MAP" 1 2 Esm2.initial).
  - exact Esm2_shapes.
  - exact Esm2_frames.
  - by_computation.
  - change (1 ≤ 1 ≤ 2 ∧ 2 ≤ 3). lia.
  - intros p Hp. assert (p = 1 ∨ p = 2) as [->| ->] by lia.
    + vm_compute. reflexivity.
    + vm_compute. reflexivity.
Defined.

Section job_script_examples.
Import Strings.Ascii JobScript.

(** X10 on a call that names [-a] twice. *)
Lemma options_set_the_variables_witness :
  esm_example "esm_example.sh"
    ["-a"; "esm2"; "-s"; "MAPLRKT"; "-o"; "out.csv"; "-a"; "esmfold"]
    {| app := ""; sequence := "";
       output_file := ""; stdout := [];
       stderr := [] |}
  = Some (0, {| app := "esmfold"; sequence := "MAPLRKT";
                output_file := "out.csv";
                stdout :=
                  ["APP esmfold MAPLRKT out.csv"; "SEQ MAPLRKT";
                   "OUT out.csv"];
                stderr := [] |}).
Proof.
  apply (options_set_the_variables "esm_example.sh"
           [("a"%char, "esm2"); ("s"%char, "MAPLRKT"); ("o"%char, "out.csv");
            ("a"%char, "esmfold")]
           {| app := ""; sequence := "";
              output_file := ""; stdout := [];
              stderr := [] |}).
  by_computation.
Defined.

(** X11: the sequence given without [-s] ends the options, and the [-o]
    after it is not read. *)
Lemma operands_end_the_options_witness :
  esm_example "esm_example.sh"
    ["-a"; "esm2"; "MAPLRKT"; "-o"; "out.csv"]
    {| app := ""; sequence := "";
       output_file := ""; stdout := [];
       stderr := [] |}
  = esm_example "esm_example.sh" ["-a"; "esm2"]
      {| app := ""; sequence := "";
         output_file := ""; stdout := [];
         stderr := [] |}.
Proof.
  apply (operands_end_the_options "esm_example.sh" [("a"%char, "esm2")]
           "MAPLRKT" ["-o"; "out.csv"]).
  - by_computation.
  - exact I.
Defined.

(** X12 on [-sMAPLRKT]. *)
Lemma attached_value_witness :
  esm_example "esm_example.sh" ["-sMAPLRKT"]
    {| app := ""; sequence := "";
       output_file := ""; stdout := [];
       stderr := [] |}
  = esm_example "esm_example.sh" ["-s"; "MAPLRKT"]
      {| app := ""; sequence := "";
         output_file := ""; stdout := [];
         stderr := [] |}.
Proof.
  apply (attached_value "esm_example.sh" [] "s"%char "MAPLRKT" []).
  - constructor.
  - reflexivity.
  - discriminate.
Defined.

(** X13 on the long option [--app]. *)
Lemma other_options_are_refused_witness :
  ∃ sh',
    esm_example "esm_example.sh" ["--app"; "esm2"]
      {| app := ""; sequence := "";
         output_file := ""; stdout := [];
         stderr := [] |}
    = Some (1, sh')
    ∧ stdout sh' = []
    ∧ stderr sh'
      = ["esm_example.sh: illegal option -- -";
         "Usage: esm_example.sh [-a app] [-s sequence] [-o output file]"].
Proof.
  apply (other_options_are_refused "esm_example.sh" [] "-"%char "app"
           ["esm2"]).
  - constructor.
  - reflexivity.
  - discriminate.
Defined.

(** X14 on a call that ends in [-s]. *)
Lemma option_without_value_witness :
  ∃ sh',
    esm_example "esm_example.sh" ["-a"; "esm2"; "-s"]
      {| app := ""; sequence := "";
         output_file := ""; stdout := [];
         stderr := [] |}
    = Some (1, sh')
    ∧ stdout sh' = []
    ∧ stderr sh'
      = ["esm_example.sh: option requires an argument -- s";
         "Usage: esm_example.sh [-a app] [-s sequence] [-o output file]"].
Proof.
  apply (option_without_value "esm_example.sh" [("a"%char, "esm2")] "s"%char).
  - by_computation.
  - reflexivity.
Defined.

End job_script_examples.
